(** * Matching and detection filtering of [models.py]

    A shallow embedding of the box geometry ([box_iou],
    [generalized_box_iou]), of [HungarianMatcher] and of [PostProcess]
    from [src/models.py].

    Tensors are nested lists; a Python exception is a value of [error]
    carried by [result].  The scalar arithmetic of the tensors is an
    interface ([Scalar]): the definitions use exactly the operations the
    source uses, and the theorems that do not depend on arithmetic laws
    hold for every interpretation of them.  Theorems that need the
    comparisons to form a total preorder (no NaN) ask for [ScalarOrder].
    The rationals are the executable instance used to run the
    definitions.

    Two library routines the source calls have no code in the
    repository, [scipy.optimize.linear_sum_assignment] and
    [torchvision.ops.nms]; each is modelled from the specification, as
    said at its definition.  The shapes of the tensors are those the
    docstrings give; the theorems state them as hypotheses. *)

From Stdlib Require Import List Arith ZArith QArith Qabs Lia Lqa Bool Sorted Permutation.
From Equations Require Import Equations.
Import ListNotations.
Close Scope Q_scope.

Set Implicit Arguments.

(** ** Exceptions *)

Inductive error : Type :=
| AssertionError
| IndexError
| RuntimeError.

Inductive result (A : Type) : Type :=
| Ok (a : A)
| Raise (e : error).

Arguments Ok {A} a.
Arguments Raise {A} e.

Definition bind {A B : Type} (r : result A) (k : A -> result B) : result B :=
  match r with
  | Ok a => k a
  | Raise e => Raise e
  end.

Notation "x <- e ;; k" := (bind e (fun x => k))
  (at level 61, e at next level, right associativity).

Definition is_ok {A : Type} (r : result A) : bool :=
  match r with Ok _ => true | Raise _ => false end.

Fixpoint mapM {A B : Type} (f : A -> result B) (l : list A) : result (list B) :=
  match l with
  | [] => Ok []
  | a :: l' => b <- f a ;; bs <- mapM f l' ;; Ok (b :: bs)
  end.

(** ** Scalars *)

Class Scalar (F : Type) : Type := {
  fzero : F;
  fadd : F -> F -> F;
  fsub : F -> F -> F;
  fmul : F -> F -> F;
  fdiv : F -> F -> F;
  fneg : F -> F;
  fabs : F -> F;
  fexp : F -> F;
  fltb : F -> F -> bool;
  fleb : F -> F -> bool;
  feqb : F -> F -> bool
}.

(** The comparisons form a total preorder, and [<] is the strict part of
    [<=].  IEEE arithmetic satisfies this away from NaN. *)
Class ScalarOrder (F : Type) {SF : Scalar F} : Prop := {
  fleb_total : forall x y : F, fleb x y = true \/ fleb y x = true;
  fleb_trans : forall x y z : F,
      fleb x y = true -> fleb y z = true -> fleb x z = true;
  fltb_fleb : forall x y : F, fltb x y = negb (fleb y x)
}.

Arguments ScalarOrder F {SF}.

Section Geometry.

Context {F : Type} {SF : Scalar F}.

(** [a > b] and [a >= b] of the source. *)
Definition fgtb (a b : F) : bool := fltb b a.
Definition fgeb (a b : F) : bool := fleb b a.

(** Elementwise [torch.max], [torch.min] and [clamp(min=0)], written
    with the comparison (what they do on NaN is left aside). *)
Definition fmax (a b : F) : F := if fltb a b then b else a.
Definition fmin (a b : F) : F := if fltb b a then b else a.
Definition clamp0 (a : F) : F := if fltb a fzero then fzero else a.

(** A row [x0, y0, x1, y1] of a box tensor. *)
Record Box : Type := mkBox { x0 : F; y0 : F; x1 : F; y1 : F }.

(** [torchvision.ops.box_area]. *)
Definition box_area (b : Box) : F :=
  fmul (fsub (x1 b) (x0 b)) (fsub (y1 b) (y0 b)).

(** One entry of [box_iou]: the pair (iou, union) of boxes [a] and [b]. *)
Definition box_iou_pair (a b : Box) : F * F :=
  let area1 := box_area a in
  let area2 := box_area b in
  let lt_x := fmax (x0 a) (x0 b) in
  let lt_y := fmax (y0 a) (y0 b) in
  let rb_x := fmin (x1 a) (x1 b) in
  let rb_y := fmin (y1 a) (y1 b) in
  let w := clamp0 (fsub rb_x lt_x) in
  let h := clamp0 (fsub rb_y lt_y) in
  let inter := fmul w h in
  let union := fsub (fadd area1 area2) inter in
  let iou := fdiv inter union in
  (iou, union).

(** [box_iou]: the [N,M] broadcast is the map over all pairs. *)
Definition box_iou (boxes1 boxes2 : list Box)
  : list (list F) * list (list F) :=
  (map (fun a => map (fun b => fst (box_iou_pair a b)) boxes2) boxes1,
   map (fun a => map (fun b => snd (box_iou_pair a b)) boxes2) boxes1).

(** The test of the early check, on one row:
    [boxes[:, 2:] >= boxes[:, :2]]. *)
Definition box_ok (b : Box) : bool :=
  fgeb (x1 b) (x0 b) && fgeb (y1 b) (y0 b).

(** One entry of [generalized_box_iou], after the check. *)
Definition giou_pair (a b : Box) : F :=
  let '(iou, union) := box_iou_pair a b in
  let lt_x := fmin (x0 a) (x0 b) in
  let lt_y := fmin (y0 a) (y0 b) in
  let rb_x := fmax (x1 a) (x1 b) in
  let rb_y := fmax (y1 a) (y1 b) in
  let w := clamp0 (fsub rb_x lt_x) in
  let h := clamp0 (fsub rb_y lt_y) in
  let area := fmul w h in
  fsub iou (fdiv (fsub area union) area).

Definition generalized_box_iou (boxes1 boxes2 : list Box)
  : result (list (list F)) :=
  if forallb box_ok boxes1 then
    if forallb box_ok boxes2 then
      Ok (map (fun a => map (fun b => giou_pair a b) boxes2) boxes1)
    else Raise AssertionError
  else Raise AssertionError.

End Geometry.

Arguments Box F : clear implicits.

(** ** Tensor helpers *)

Section Tensors.

Context {F : Type} {SF : Scalar F}.

(** [t.sum()], accumulating from zero. *)
Definition fsum (l : list F) : F := fold_left fadd l fzero.

(** [softmax(-1)] on one row. *)
Definition softmax (row : list F) : list F :=
  let e := map fexp row in
  let s := fsum e in
  map (fun x => fdiv x s) e.

(** [torch.cat]: an empty list of tensors is refused. *)
Definition torch_cat {A : Type} (ts : list (list A)) : result (list A) :=
  match ts with
  | [] => Raise RuntimeError
  | _ => Ok (concat ts)
  end.

(** [row[i]] for a Python integer index: negative indices count from the
    end, anything else out of range raises. *)
Definition index_z {A : Type} (row : list A) (i : Z) : result A :=
  let n := Z.of_nat (length row) in
  let j := if (i <? 0)%Z then (n + i)%Z else i in
  if ((0 <=? j)%Z && (j <? n)%Z)%bool then
    match nth_error row (Z.to_nat j) with
    | Some a => Ok a
    | None => Raise IndexError
    end
  else Raise IndexError.

(** [t[i]] for a non-negative index. *)
Definition index_nat {A : Type} (t : list A) (i : nat) : result A :=
  match nth_error t i with
  | Some a => Ok a
  | None => Raise IndexError
  end.

(** One entry of [torch.cdist(_, _, p=1)]. *)
Definition l1_pair (a b : Box F) : F :=
  fadd (fadd (fadd (fabs (fsub (x0 a) (x0 b)))
                   (fabs (fsub (y0 a) (y0 b))))
             (fabs (fsub (x1 a) (x1 b))))
       (fabs (fsub (y1 a) (y1 b))).

Definition cdist_l1 (xs ys : list (Box F)) : list (list F) :=
  map (fun a => map (fun b => l1_pair a b) ys) xs.

(** [w * M] for a Python scalar [w]. *)
Definition mscale (w : F) (M : list (list F)) : list (list F) :=
  map (map (fmul w)) M.

(** Elementwise [+] of tensors of one shape.  Shapes that differ raise;
    the broadcasting of a dimension of size one is not modelled, no
    tensor of the documented shapes needs it. *)
Fixpoint vadd (a b : list F) : result (list F) :=
  match a, b with
  | [], [] => Ok []
  | x :: a', y :: b' => r <- vadd a' b' ;; Ok (fadd x y :: r)
  | _, _ => Raise RuntimeError
  end.

Fixpoint madd (A B : list (list F)) : result (list (list F)) :=
  match A, B with
  | [], [] => Ok []
  | a :: A', b :: B' => r <- vadd a b ;; R <- madd A' B' ;; Ok (r :: R)
  | _, _ => Raise RuntimeError
  end.

(** [k] consecutive groups of [n] rows. *)
Fixpoint chunks {A : Type} (n k : nat) (l : list A) : list (list A) :=
  match k with
  | O => []
  | S k' => firstn n l :: chunks n k' (skipn n l)
  end.

(** [C.view(bs, num_queries, -1)] of a 2-d tensor with [bs * num_queries]
    rows.  With no element and [bs * num_queries = 0] the size of the
    last dimension cannot be inferred and torch raises. *)
Definition view3 (bs nq : nat) (C : list (list F))
  : result (list (list (list F))) :=
  if (bs * nq =? 0)%nat then Raise RuntimeError
  else if (length C =? bs * nq)%nat then Ok (chunks nq bs C)
  else Raise RuntimeError.

(** [C.split(sizes, -1)]: consecutive column ranges of the given sizes. *)
Fixpoint split_last (sizes : list nat) (C : list (list (list F)))
  : list (list (list (list F))) :=
  match sizes with
  | [] => []
  | s :: rest =>
      map (map (firstn s)) C :: split_last rest (map (map (skipn s)) C)
  end.

Definition enumerate {A : Type} (l : list A) : list (nat * A) :=
  combine (seq 0 (length l)) l.

End Tensors.

(** ** The assignment solver *)

Section Solver.

Context {F : Type} {SF : Scalar F}.

(** All partial one-to-one assignments of the rows [rows] (taken in
    order) to columns of [cols]: each row is left out or is given a
    column no other row has. *)
Fixpoint matchings (rows cols : list nat) : list (list (nat * nat)) :=
  match rows with
  | [] => [[]]
  | r :: rs =>
      matchings rs cols
      ++ flat_map (fun c =>
                     map (cons (r, c))
                         (matchings rs (remove Nat.eq_dec c cols)))
                  cols
  end.

Definition entry (c : list (list F)) (p : nat * nat) : F :=
  nth (snd p) (nth (fst p) c []) fzero.

(** [cost_matrix[row_ind, col_ind].sum()]. *)
Definition total_cost (c : list (list F)) (m : list (nat * nat)) : F :=
  fsum (map (entry c) m).

(** The first element of [best :: l] of least value. *)
Fixpoint argmin {A : Type} (f : A -> F) (best : A) (l : list A) : A :=
  match l with
  | [] => best
  | a :: l' => argmin f (if fltb (f a) (f best) then a else best) l'
  end.

Definition best_matching (c : list (list F)) : list (nat * nat) :=
  let nr := length c in
  let nc := length (hd [] c) in
  match filter (fun m => (length m =? Nat.min nr nc)%nat)
               (matchings (seq 0 nr) (seq 0 nc)) with
  | [] => []
  | m :: ms => argmin (total_cost c) m ms
  end.

(** Modelled from the spec: [scipy.optimize.linear_sum_assignment], a
    library routine that [HungarianMatcher.forward] calls and whose code
    is not under src/.  The spec asks for the assignment of [min(Q, T)]
    pairs of least total cost with each query and each target used at
    most once, by any equivalent algorithm, ties broken
    deterministically; this is the exhaustive search, returning the row
    indices in increasing order and their columns.  (SciPy refuses a
    matrix with NaN or infinite entries that leave no assignment; the
    scalar interface does not tell such values apart, and the search is
    total.) *)
Definition linear_sum_assignment (c : list (list F)) : list nat * list nat :=
  let m := best_matching c in
  (map fst m, map snd m).

End Solver.

(** ** HungarianMatcher *)

Section Matcher.

Context {F : Type} {SF : Scalar F}.

Record HungarianMatcher : Type := mkMatcher {
  cost_class : F;
  cost_bbox : F;
  cost_giou : F
}.

(** [HungarianMatcher.__init__]: the fields are set, then the assertion
    "all costs cant be 0" is checked. *)
Definition HungarianMatcher_init (cost_class cost_bbox cost_giou : F)
  : result HungarianMatcher :=
  let self := mkMatcher cost_class cost_bbox cost_giou in
  if negb (feqb cost_class fzero)
     || negb (feqb cost_bbox fzero)
     || negb (feqb cost_giou fzero)
  then Ok self
  else Raise AssertionError.

(** [outputs]: "pred_logits" of shape [batch_size, num_queries,
    num_classes] and "pred_boxes" of shape [batch_size, num_queries, 4]. *)
Record Outputs : Type := mkOutputs {
  pred_logits : list (list (list F));
  pred_boxes : list (list (Box F))
}.

(** One target: "labels" of shape [num_target_boxes] and "boxes" of
    shape [num_target_boxes, 4]. *)
Record Target : Type := mkTarget {
  labels : list Z;
  boxes : list (Box F)
}.

(** The cost matrix [C] of [forward] before it is reshaped: one row per
    query of the flattened batch, one column per target of the
    concatenated targets. *)
Definition cost_matrix (self : HungarianMatcher) (outputs : Outputs)
           (targets : list Target) : result (list (list F)) :=
  let out_prob := map softmax (concat (pred_logits outputs)) in
  let out_bbox := concat (pred_boxes outputs) in
  tgt_ids <- torch_cat (map labels targets) ;;
  tgt_bbox <- torch_cat (map boxes targets) ;;
  c_class <- mapM (fun p =>
                     mapM (fun id => v <- index_z p id ;; Ok (fneg v))
                          tgt_ids)
                  out_prob ;;
  let c_bbox := cdist_l1 out_bbox tgt_bbox in
  g <- generalized_box_iou out_bbox tgt_bbox ;;
  let c_giou := map (map fneg) g in
  s <- madd (mscale (cost_bbox self) c_bbox)
            (mscale (cost_class self) c_class) ;;
  madd s (mscale (cost_giou self) c_giou).

(** The chunks [C.view(bs, num_queries, -1).split(sizes, -1)] that
    [forward] enumerates. *)
Definition cost_chunks (self : HungarianMatcher) (outputs : Outputs)
           (targets : list Target)
  : result (list (list (list (list F)))) :=
  let bs := length (pred_logits outputs) in
  let num_queries := length (hd [] (pred_logits outputs)) in
  C <- cost_matrix self outputs targets ;;
  C <- view3 bs num_queries C ;;
  let sizes := map (fun v => length (boxes v)) targets in
  Ok (split_last sizes C).

(** The blocks [c[i]] handed to the solver. *)
Definition cost_blocks (self : HungarianMatcher) (outputs : Outputs)
           (targets : list Target) : result (list (list (list F))) :=
  cs <- cost_chunks self outputs targets ;;
  mapM (fun ic => index_nat (snd ic) (fst ic)) (enumerate cs).

(** [HungarianMatcher.forward]. *)
Definition forward (self : HungarianMatcher) (outputs : Outputs)
           (targets : list Target) : result (list (list nat * list nat)) :=
  cs <- cost_chunks self outputs targets ;;
  mapM (fun ic =>
          ci <- index_nat (snd ic) (fst ic) ;;
          Ok (linear_sum_assignment ci))
       (enumerate cs).

(** [match] of the interface: construction, then matching. *)
Definition match_ (w_class w_bbox w_giou : F) (outputs : Outputs)
           (targets : list Target) : result (list (list nat * list nat)) :=
  self <- HungarianMatcher_init w_class w_bbox w_giou ;;
  forward self outputs targets.

End Matcher.

Arguments HungarianMatcher F : clear implicits.
Arguments Outputs F : clear implicits.
Arguments Target F : clear implicits.

(** ** PostProcess *)

Section Filter.

Context {F : Type} {SF : Scalar F}.

Record PostProcess : Type := mkPostProcess {
  confidence_threshold : F;
  iou_threshold : F
}.

(** [torch.max(scores, dim=1)] on one row: the value and the index of
    the first maximal entry; an empty row cannot be reduced. *)
Fixpoint max_from (best : F) (bi i : nat) (l : list F) : F * nat :=
  match l with
  | [] => (best, bi)
  | x :: l' =>
      if fltb best x then max_from x i (S i) l'
      else max_from best bi (S i) l'
  end.

Definition torch_max (row : list F) : result (F * nat) :=
  match row with
  | [] => Raise IndexError
  | x :: l => Ok (max_from x 0 1 l)
  end.

(** [t[idx]] for a boolean mask [idx] of the length of [t]. *)
Fixpoint mask_select {A : Type} (t : list A) (idx : list bool)
  : result (list A) :=
  match t, idx with
  | [], [] => Ok []
  | a :: t', b :: idx' =>
      r <- mask_select t' idx' ;; Ok (if b then a :: r else r)
  | _, _ => Raise IndexError
  end.

(** [t[idx]] for a tensor [idx] of integer indices. *)
Definition gather {A : Type} (t : list A) (idx : list nat) : result (list A) :=
  mapM (index_nat t) idx.

(** Stable sort by descending key. *)
Fixpoint insert_desc {A : Type} (key : A -> F) (x : A) (l : list A) : list A :=
  match l with
  | [] => [x]
  | y :: l' =>
      if fleb (key y) (key x) then x :: l
      else y :: insert_desc key x l'
  end.

Fixpoint sort_desc {A : Type} (key : A -> F) (l : list A) : list A :=
  match l with
  | [] => []
  | x :: l' => insert_desc key x (sort_desc key l')
  end.

(** Select the first remaining element, emit it, remove every remaining
    element it suppresses, and go on with what remains. *)
Equations greedy {A : Type} (sup : A -> A -> bool) (l : list A) : list A
  by wf (length l) lt :=
  greedy sup [] := [];
  greedy sup (i :: rest) :=
    i :: greedy sup (filter (fun j => negb (sup i j)) rest).
Next Obligation.
  apply Nat.lt_succ_r, filter_length_le.
Qed.

Definition box0 : Box F := mkBox fzero fzero fzero fzero.

(** Modelled from the spec: [torchvision.ops.nms], a library routine that
    [PostProcess.__call__] calls and whose code is not under src/.  The
    spec's greedy NMS: sort by descending score; repeatedly select the
    highest-scoring remaining box, emit it, then remove every remaining
    box whose IoU with the selected box exceeds the threshold.  The
    result is the indices of the kept boxes, in descending-score order;
    the IoU is the one of [box_iou]. *)
Definition nms (boxes : list (Box F)) (scores : list F) (iou_threshold : F)
  : result (list nat) :=
  if (length boxes =? length scores)%nat then
    let key := fun i => nth i scores fzero in
    let sup := fun i j =>
      fgtb (fst (box_iou_pair (nth i boxes box0) (nth j boxes box0)))
           iou_threshold in
    Ok (greedy sup (sort_desc key (seq 0 (length boxes))))
  else Raise RuntimeError.

(** [PostProcess.__call__] up to the thresholding: on the squeezed
    batch of one, the boxes, classes and scores of the queries that pass
    the confidence threshold.  A tensor without rows does not record its
    number of columns: with no query at all the model returns the empty
    result whatever the number of classes. *)
Definition threshold_stage (self : PostProcess) (all_pred_boxes : list (Box F))
           (pred_classes : list (list F))
  : result (list (Box F) * list nat * list F) :=
  top <- mapM (fun row => torch_max (removelast (softmax row))) pred_classes ;;
  let scores := map fst top in
  let classes := map snd top in
  let idx := map (fun s => fgtb s (confidence_threshold self)) scores in
  scores' <- mask_select scores idx ;;
  classes' <- mask_select classes idx ;;
  pred_boxes' <- mask_select all_pred_boxes idx ;;
  Ok (pred_boxes', classes', scores').

(** The suppression step of [PostProcess.__call__]. *)
Definition suppress (self : PostProcess)
           (d : list (Box F) * list nat * list F)
  : result (list (Box F) * list nat * list F) :=
  let '(pred_boxes, classes, scores) := d in
  idx <- nms pred_boxes scores (iou_threshold self) ;;
  classes' <- gather classes idx ;;
  pred_boxes' <- gather pred_boxes idx ;;
  scores' <- gather scores idx ;;
  Ok (pred_boxes', classes', scores').

(** [PostProcess.__call__] on a batch of one ([squeeze(0)] on the way
    in, [unsqueeze_(0)] on the way out). *)
Definition PostProcess_call (self : PostProcess) (all_pred_boxes : list (Box F))
           (pred_classes : list (list F))
  : result (list (Box F) * list nat * list F) :=
  d <- threshold_stage self all_pred_boxes pred_classes ;;
  suppress self d.

End Filter.

Arguments PostProcess F : clear implicits.

(** ** The rationals as scalars *)

(** A stand-in for the exponential, its Taylor polynomial of degree
    four, exact at 0; it only serves to run the definitions. *)
Definition Qexp_poly (x : Q) : Q :=
  Qred (1 + x + x * x / 2 + x * x * x / 6 + x * x * x * x / 24).

(** Exact rational arithmetic, results in lowest terms.  Division by
    zero yields 0 here where IEEE arithmetic yields an infinity or NaN;
    no example below divides by zero. *)
#[export] Instance Q_scalar : Scalar Q := {|
  fzero := 0%Q;
  fadd := fun a b => Qred (a + b);
  fsub := fun a b => Qred (a - b);
  fmul := fun a b => Qred (a * b);
  fdiv := fun a b => Qred (a / b);
  fneg := fun a => Qred (- a);
  fabs := fun a => Qred (Qabs a);
  fexp := Qexp_poly;
  fltb := fun a b => negb (Qle_bool b a);
  fleb := Qle_bool;
  feqb := Qeq_bool
|}.

(** ** A batch on the rationals, used to run the definitions *)

Definition qbox (a b c d : Q) : Box Q := mkBox a b c d.

(** Two batch elements, two queries each, three classes. *)
Definition ex_outputs : Outputs Q :=
  mkOutputs
    [[[1; 0; 0]; [0; 1; 0]]; [[0; 0; 1]; [1; 1; 0]]]%Q
    [[qbox 0 0 1 1; qbox 0 0 2 2]; [qbox 1 1 2 2; qbox 0 0 3 3]].

(** The same boxes with all logits zero: every class has probability
    one third, whatever the exponential is. *)
Definition ex_uniform : Outputs Q :=
  mkOutputs
    [[[0; 0; 0]; [0; 0; 0]]; [[0; 0; 0]; [0; 0; 0]]]%Q
    [[qbox 0 0 1 1; qbox 0 0 2 2]; [qbox 1 1 2 2; qbox 0 0 3 3]].

Definition ex_targets : list (Target Q) :=
  [mkTarget [0%Z] [qbox 0 0 1 1];
   mkTarget [1%Z; 0%Z] [qbox 1 1 2 2; qbox 0 0 1 1]].

Definition ex_one_target : list (Target Q) :=
  [mkTarget [0%Z] [qbox 0 0 1 1]].

Definition ex_three_targets : list (Target Q) :=
  [mkTarget [0%Z] [qbox 0 0 1 1];
   mkTarget [1%Z] [qbox 1 1 2 2];
   mkTarget [2%Z] [qbox 0 0 3 3]].

(** One batch element with five queries, and a target without entry. *)
Definition ex_outputs5 : Outputs Q :=
  mkOutputs
    [[[1; 0]; [0; 1]; [1; 1]; [2; 0]; [0; 2]]]%Q
    [[qbox 0 0 1 1; qbox 0 0 2 2; qbox 1 1 2 2; qbox 0 0 3 3; qbox 1 0 2 1]].

Definition ex_no_target : list (Target Q) := [mkTarget [] []].

Definition ex_matcher : HungarianMatcher Q := mkMatcher 1%Q 1%Q 1%Q.

(** Three queries, two of them on the same box, with the default
    thresholds of [PostProcess]. *)
Definition ex_filter : PostProcess Q := mkPostProcess (3 # 4)%Q (3 # 10)%Q.

Definition ex_boxes : list (Box Q) :=
  [qbox 0 0 10 10; qbox 0 0 10 10; qbox 20 20 30 30].

Definition ex_logits : list (list Q) := [[3; 0; 0]; [0; 4; 0]; [0; 0; 5]]%Q.

Definition ex_classes : list nat := [0; 1; 0].

Definition ex_scores : list Q := [8 # 10; 9 # 10; 85 # 100]%Q.

(** ** Specification-level notions *)

Section Notions.

Context {F : Type} {SF : Scalar F}.

(** The entry the cost matrix is to have for a query (its logits and its
    box) and a target (its label and its box). *)
Definition pair_cost (self : HungarianMatcher F) (logits : list F)
           (qbox : Box F) (label : Z) (tbox : Box F) : F :=
  fadd (fadd (fmul (cost_bbox self) (l1_pair qbox tbox))
             (fmul (cost_class self)
                   (fneg (nth (Z.to_nat label) (softmax logits) fzero))))
       (fmul (cost_giou self) (fneg (giou_pair qbox tbox))).

(** The queries of one batch element, each with its box and its class
    probabilities, and the entries of one target. *)
Definition queries_of (e : list (list F) * list (Box F))
  : list (Box F * list F) :=
  combine (snd e) (map softmax (fst e)).

Definition batch_queries (outputs : Outputs F) : list (list (Box F * list F)) :=
  map queries_of (combine (pred_logits outputs) (pred_boxes outputs)).

Definition target_entries (t : Target F) : list (Box F * Z) :=
  combine (boxes t) (labels t).

Definition entry_cost (self : HungarianMatcher F) (x : Box F * list F)
           (y : Box F * Z) : F :=
  fadd (fadd (fmul (cost_bbox self) (l1_pair (fst x) (fst y)))
             (fmul (cost_class self)
                   (fneg (nth (Z.to_nat (snd y)) (snd x) fzero))))
       (fmul (cost_giou self) (fneg (giou_pair (fst x) (fst y)))).

(** The block of queries [e] against target [t]. *)
Definition block_of (self : HungarianMatcher F) (e : list (Box F * list F))
           (t : Target F) : list (list F) :=
  map (fun x => map (entry_cost self x) (target_entries t)) e.

(** The documented shapes of [outputs]. *)
Definition outputs_shape (bs nq nc : nat) (outputs : Outputs F) : Prop :=
  length (pred_logits outputs) = bs
  /\ Forall (fun e => length e = nq
                      /\ Forall (fun row => length row = nc) e)
            (pred_logits outputs)
  /\ Forall2 (fun e b => length b = length e)
             (pred_logits outputs) (pred_boxes outputs).

(** A target whose labels and boxes go together, with labels that are
    classes and boxes that pass the check. *)
Definition target_ok (nc : nat) (t : Target F) : Prop :=
  length (labels t) = length (boxes t)
  /\ Forall (fun id => (0 <= id < Z.of_nat nc)%Z) (labels t)
  /\ Forall (fun b => box_ok b = true) (boxes t).

Definition boxes_ok (outputs : Outputs F) : Prop :=
  Forall (Forall (fun b => box_ok b = true)) (pred_boxes outputs).

(** A one-to-one matching of rows below [nr] with columns below [nc],
    listed by increasing row. *)
Definition is_matching (nr nc : nat) (m : list (nat * nat)) : Prop :=
  StronglySorted lt (map fst m)
  /\ NoDup (map snd m)
  /\ Forall (fun p => fst p < nr /\ snd p < nc) m.

(** A one-to-one matching whose pairs come in any order. *)
Definition is_matching_set (nr nc : nat) (m : list (nat * nat)) : Prop :=
  NoDup (map fst m)
  /\ NoDup (map snd m)
  /\ Forall (fun p => fst p < nr /\ snd p < nc) m.

(** What the solver owes on a cost matrix with [nr] rows and [nc]
    columns. *)
Definition optimal_assignment (c : list (list F)) (nr nc : nat)
           (a : list nat * list nat) : Prop :=
  let m := combine (fst a) (snd a) in
  length (fst a) = Nat.min nr nc
  /\ length (snd a) = Nat.min nr nc
  /\ NoDup (fst a)
  /\ NoDup (snd a)
  /\ is_matching nr nc m
  /\ forall m', is_matching nr nc m' -> length m' = Nat.min nr nc ->
                fleb (total_cost c m) (total_cost c m') = true.

(** The score and the class of one query of [PostProcess]. *)
Definition query_scores (logits : list F) : list F :=
  removelast (softmax logits).

(** The value and the index [torch.max] yields for one query. *)
Definition query_top (logits : list F) : F * nat :=
  match query_scores logits with
  | [] => (fzero, 0)
  | x :: l => max_from x 0 1 l
  end.

(** A query as the filter sees it: its box, its class, its score. *)
Definition detection : Type := (Box F * nat * F)%type.

Definition det_box (d : detection) : Box F := fst (fst d).
Definition det_class (d : detection) : nat := snd (fst d).
Definition det_score (d : detection) : F := snd d.
Definition det0 : detection := (box0, 0, fzero).

Definition detections (all_pred_boxes : list (Box F))
           (pred_classes : list (list F)) : list detection :=
  map (fun bl => (fst bl, snd (query_top (snd bl)), fst (query_top (snd bl))))
      (combine all_pred_boxes pred_classes).

(** The three parallel sequences of a list of detections. *)
Definition unzip3 (l : list detection) : list (Box F) * list nat * list F :=
  (map det_box l, map det_class l, map det_score l).

Definition passes (t : F) (d : detection) : bool := fgtb (det_score d) t.

Definition overlaps (thr : F) (a b : detection) : bool :=
  fgtb (fst (box_iou_pair (det_box a) (det_box b))) thr.

(** The detection of query [q], and the queries whose score exceeds the
    confidence threshold [t]. *)
Definition query_detection (all_pred_boxes : list (Box F))
           (pred_classes : list (list F)) (q : nat) : detection :=
  (nth q all_pred_boxes box0,
   snd (query_top (nth q pred_classes [])),
   fst (query_top (nth q pred_classes []))).

Definition kept_queries (t : F) (pred_classes : list (list F)) : list nat :=
  filter (fun q => fgtb (fst (query_top (nth q pred_classes []))) t)
         (seq 0 (length pred_classes)).

(** The indices [nms] returns on the boxes and scores of [K]. *)
Definition nms_order (thr : F) (K : list detection) : list nat :=
  greedy (fun i j => overlaps thr (nth i K det0) (nth j K det0))
         (sort_desc (fun i => det_score (nth i K det0)) (seq 0 (length K))).

(** The detections that survive thresholding and suppression. *)
Definition survivors (self : PostProcess F) (all_pred_boxes : list (Box F))
           (pred_classes : list (list F)) : list detection :=
  greedy (overlaps (iou_threshold self))
         (sort_desc det_score
                    (filter (passes (confidence_threshold self))
                            (detections all_pred_boxes pred_classes))).

(** The keys of [l] never increase along [l]. *)
Definition descending (A : Type) (key : A -> F) (l : list A) : Prop :=
  StronglySorted (fun a b => fleb (key b) (key a) = true) l.

(** [v] is a greatest element of [l], found at index [i], the first
    index holding a greatest element. *)
Definition is_first_max (l : list F) (v : F) (i : nat) : Prop :=
  nth_error l i = Some v
  /\ (forall x, In x l -> fleb x v = true)
  /\ (forall j x, j < i -> nth_error l j = Some x -> fltb x v = true).

End Notions.

(** ** Labels counted from the end *)

(** The class a label stands for when it indexes a row of [nc] entries:
    a negative label counts from the end. *)
Definition wrap_label (nc : nat) (id : Z) : Z :=
  if (id <? 0)%Z then (Z.of_nat nc + id)%Z else id.

Definition wrap_target {F : Type} (nc : nat) (t : Target F) : Target F :=
  mkTarget (map (wrap_label nc) (labels t)) (boxes t).

(** ** The extents of two boxes *)

Section Extents.

Context {F : Type} {SF : Scalar F}.

(** Along one axis, for the intervals [p0, p1] and [q0, q1]: the length
    [box_iou] clamps for their intersection, and the length
    [generalized_box_iou] clamps for the interval enclosing both. *)
Definition overlap_len (p0 p1 q0 q1 : F) : F :=
  clamp0 (fsub (fmin p1 q1) (fmax p0 q0)).

Definition enclose_len (p0 p1 q0 q1 : F) : F :=
  clamp0 (fsub (fmax p1 q1) (fmin p0 q0)).

Definition inter_w (a b : Box F) : F := overlap_len (x0 a) (x1 a) (x0 b) (x1 b).
Definition inter_h (a b : Box F) : F := overlap_len (y0 a) (y1 a) (y0 b) (y1 b).
Definition encl_w (a b : Box F) : F := enclose_len (x0 a) (x1 a) (x0 b) (x1 b).
Definition encl_h (a b : Box F) : F := enclose_len (y0 a) (y1 a) (y0 b) (y1 b).

End Extents.

(** ** More batches on the rationals *)

(** [ex_outputs] with one box turned inside out, in the second batch
    element. *)
Definition ex_bad_outputs : Outputs Q :=
  mkOutputs
    [[[1; 0; 0]; [0; 1; 0]]; [[0; 0; 1]; [1; 1; 0]]]%Q
    [[qbox 0 0 1 1; qbox 0 0 2 2]; [qbox 2 2 1 1; qbox 0 0 3 3]].

(** A label that is no class among three, and labels counted from the
    end. *)
Definition ex_bad_label : list (Target Q) :=
  [mkTarget [0%Z] [qbox 0 0 1 1]; mkTarget [3%Z] [qbox 1 1 2 2]].

Definition ex_negative_targets : list (Target Q) :=
  [mkTarget [(-1)%Z] [qbox 0 0 1 1];
   mkTarget [(-3)%Z; 1%Z] [qbox 1 1 2 2; qbox 0 0 1 1]].

(** * Theorems *)

(** ** The rationals are ordered scalars *)

#[export] Instance Q_order : ScalarOrder Q.
Proof.
  split; cbn.
  - intros x y. rewrite !Qle_bool_iff.
    destruct (Qlt_le_dec x y) as [H | H]; [left; apply Qlt_le_weak, H | right; exact H].
  - intros x y z. rewrite !Qle_bool_iff. apply Qle_trans.
  - reflexivity.
Qed.

(** ** The error monad *)

Lemma bind_ok (X Y : Type) (r : result X) (k : X -> result Y) (b : Y) :
  bind r k = Ok b <-> exists a, r = Ok a /\ k a = Ok b.
Proof.
  destruct r as [a | e]; cbn.
  - split; [intros H; exists a; auto | intros (a' & E & H); inversion E; subst; exact H].
  - split; [discriminate | intros (a' & E & _); discriminate].
Qed.

Section ResultLemmas.

Context {A B : Type}.

Lemma mapM_total (f : A -> result B) (g : A -> B) (l : list A) :
  (forall a, In a l -> f a = Ok (g a)) -> mapM f l = Ok (map g l).
Proof.
  induction l as [| a l IH]; intros H; cbn; [reflexivity |].
  rewrite (H a (or_introl eq_refl)). cbn.
  rewrite IH by (intros; apply H; right; assumption). reflexivity.
Qed.

Lemma mapM_length (f : A -> result B) (l : list A) (r : list B) :
  mapM f l = Ok r -> length r = length l.
Proof.
  revert r. induction l as [| a l IH]; cbn; intros r H.
  - inversion H. reflexivity.
  - apply bind_ok in H. destruct H as (b & _ & H).
    destruct (mapM f l) as [bs |]; cbn in H; [| discriminate].
    inversion H. cbn. f_equal. apply IH. reflexivity.
Qed.

Lemma mapM_raise (f : A -> result B) (l1 l2 : list A) (a : A) (g : A -> B) (e : error) :
  (forall x, In x l1 -> f x = Ok (g x)) -> f a = Raise e ->
  mapM f (l1 ++ a :: l2) = Raise e.
Proof.
  induction l1 as [| x l1 IH]; intros H Ha; cbn.
  - rewrite Ha. reflexivity.
  - rewrite (H x (or_introl eq_refl)). cbn.
    rewrite IH; auto. intros; apply H; right; assumption.
Qed.

End ResultLemmas.

(** ** Box geometry *)

Section GeometryFacts.

Context {F : Type} {SF : Scalar F}.

Lemma forallb_false_ex (A : Type) (p : A -> bool) (l : list A) :
  forallb p l = false <-> exists a, In a l /\ p a = false.
Proof.
  induction l as [| a l IH]; cbn.
  - split; [discriminate | intros (a & [] & _)].
  - rewrite andb_false_iff, IH. split.
    + intros [H | (b & Hin & Hb)]; [exists a; auto | exists b; auto].
    + intros (b & [E | Hin] & Hb); [subst; auto | right; exists b; auto].
Qed.

(** C6.  [generalized_box_iou] tests every box of both sets for
    [x1 >= x0] and [y1 >= y0] before anything else: the call raises the
    assertion failure exactly when some box fails the test, whatever the
    coordinates; it never raises anything else; and when every box
    passes, the failure is not reached and the result is the matrix of
    the pairwise generalized IoU. *)
Theorem generalized_box_iou_checked (boxes1 boxes2 : list (Box F)) :
  (forall b : Box F,
      box_ok b = true <->
      fgeb (x1 b) (x0 b) = true /\ fgeb (y1 b) (y0 b) = true)
  /\ (generalized_box_iou boxes1 boxes2 = Raise AssertionError <->
      exists b, In b (boxes1 ++ boxes2) /\ box_ok b = false)
  /\ ((forall b, In b (boxes1 ++ boxes2) -> box_ok b = true) <->
      generalized_box_iou boxes1 boxes2
      = Ok (map (fun a => map (fun b => giou_pair a b) boxes2) boxes1))
  /\ (forall e, generalized_box_iou boxes1 boxes2 = Raise e ->
                e = AssertionError).
Proof.
  unfold generalized_box_iou.
  split; [intros b; unfold box_ok; apply andb_true_iff |].
  destruct (forallb box_ok boxes1) eqn:E1.
  - destruct (forallb box_ok boxes2) eqn:E2.
    + rewrite forallb_forall in E1, E2.
      split; [| split].
      * split; [discriminate |].
        intros (b & Hin & Hb). apply in_app_or in Hin.
        destruct Hin as [Hin | Hin];
          [rewrite (E1 b Hin) in Hb | rewrite (E2 b Hin) in Hb]; discriminate.
      * split; [reflexivity |].
        intros _ b Hin. apply in_app_or in Hin. destruct Hin; auto.
      * discriminate.
    + apply forallb_false_ex in E2. destruct E2 as (b & Hin & Hb).
      split; [| split].
      * split; [| reflexivity]. intros _. exists b. split; [apply in_or_app; auto | exact Hb].
      * split; [| discriminate]. intros H.
        rewrite H in Hb by (apply in_or_app; auto). discriminate.
      * intros e H. inversion H. reflexivity.
  - apply forallb_false_ex in E1. destruct E1 as (b & Hin & Hb).
    split; [| split].
    + split; [| reflexivity]. intros _. exists b. split; [apply in_or_app; auto | exact Hb].
    + split; [| discriminate]. intros H.
      rewrite H in Hb by (apply in_or_app; auto). discriminate.
    + intros e H. inversion H. reflexivity.
Qed.

End GeometryFacts.

(** ** Construction of the matcher *)

Section InitFacts.

Context {F : Type} {SF : Scalar F}.

Lemma init_cases (wc wb wg : F) :
  (feqb wc fzero = true /\ feqb wb fzero = true /\ feqb wg fzero = true
   /\ HungarianMatcher_init wc wb wg = Raise AssertionError)
  \/ (~ (feqb wc fzero = true /\ feqb wb fzero = true /\ feqb wg fzero = true)
      /\ HungarianMatcher_init wc wb wg = Ok (mkMatcher wc wb wg)).
Proof.
  unfold HungarianMatcher_init.
  destruct (feqb wc fzero), (feqb wb fzero), (feqb wg fzero); cbn;
    first [ left; repeat split; reflexivity
          | right; split; [intros (H1 & H2 & H3); discriminate | reflexivity] ].
Qed.

End InitFacts.

(** C7.  Constructing the matcher fails (the assertion "all costs cant
    be 0") exactly when the three weights all compare equal to zero, and
    otherwise yields the matcher holding the three weights; a call of
    [match] with three zero weights fails at the construction, whatever
    the predictions and the targets are.  On the rationals, comparing
    equal to zero is being zero. *)
Theorem init_fails_iff_all_zero :
  (forall (F : Type) (SF : Scalar F) (wc wb wg : F),
      (HungarianMatcher_init wc wb wg = Raise AssertionError <->
       feqb wc fzero = true /\ feqb wb fzero = true /\ feqb wg fzero = true)
      /\ (HungarianMatcher_init wc wb wg = Ok (mkMatcher wc wb wg) <->
          ~ (feqb wc fzero = true /\ feqb wb fzero = true
             /\ feqb wg fzero = true))
      /\ (forall outputs targets,
             feqb wc fzero = true /\ feqb wb fzero = true
             /\ feqb wg fzero = true ->
             match_ wc wb wg outputs targets = Raise AssertionError))
  /\ (forall wc wb wg : Q,
         HungarianMatcher_init wc wb wg = Raise AssertionError <->
         (wc == 0 /\ wb == 0 /\ wg == 0)%Q).
Proof.
  assert (G : forall (F : Type) (SF : Scalar F) (wc wb wg : F),
      (HungarianMatcher_init wc wb wg = Raise AssertionError <->
       feqb wc fzero = true /\ feqb wb fzero = true /\ feqb wg fzero = true)
      /\ (HungarianMatcher_init wc wb wg = Ok (mkMatcher wc wb wg) <->
          ~ (feqb wc fzero = true /\ feqb wb fzero = true
             /\ feqb wg fzero = true))).
  { intros F SF wc wb wg.
    destruct (init_cases wc wb wg) as [(H1 & H2 & H3 & E) | (N & E)]; rewrite E.
    - split; split; auto; try discriminate. intros N. exfalso. apply N. auto.
    - split; split; auto; try discriminate. intros H. exfalso. apply N, H. }
  split.
  - intros F SF wc wb wg. destruct (G F SF wc wb wg) as [G1 G2].
    split; [exact G1 | split; [exact G2 |]].
    intros outputs targets H. unfold match_.
    apply G1 in H. rewrite H. reflexivity.
  - intros wc wb wg. destruct (G Q Q_scalar wc wb wg) as [G1 _].
    rewrite G1. cbn. rewrite !Qeq_bool_iff. reflexivity.
Qed.

(** ** Lists: flattening, regrouping and slicing *)

Section ListFacts.

Context {A B : Type}.

Lemma map_fst_combine_eq (l1 : list A) (l2 : list B) :
  length l1 = length l2 -> map fst (combine l1 l2) = l1.
Proof.
  revert l2. induction l1 as [| a l1 IH]; intros [| b l2] H; cbn in *;
    try discriminate; [reflexivity |].
  f_equal. apply IH. lia.
Qed.

Lemma map_snd_combine_eq (l1 : list A) (l2 : list B) :
  length l1 = length l2 -> map snd (combine l1 l2) = l2.
Proof.
  revert l2. induction l1 as [| a l1 IH]; intros [| b l2] H; cbn in *;
    try discriminate; [reflexivity |].
  f_equal. apply IH. lia.
Qed.

Lemma combine_concat (As : list (list A)) (Bs : list (list B)) :
  Forall2 (fun a b => length b = length a) As Bs ->
  combine (concat As) (concat Bs)
  = concat (map (fun ab => combine (fst ab) (snd ab)) (combine As Bs)).
Proof.
  induction 1 as [| a b As Bs Hab _ IH]; cbn; [reflexivity |].
  rewrite <- IH. clear IH.
  revert b Hab. induction a as [| x a IHa]; intros [| y b] Hab; cbn in *;
    try discriminate; [reflexivity |].
  f_equal. apply IHa. lia.
Qed.

Lemma firstn_app_exact (n : nat) (a b : list A) :
  length a = n -> firstn n (a ++ b) = a.
Proof.
  intros <-. rewrite firstn_app, Nat.sub_diag, firstn_all. cbn.
  apply app_nil_r.
Qed.

Lemma skipn_app_exact (n : nat) (a b : list A) :
  length a = n -> skipn n (a ++ b) = b.
Proof.
  intros <-. rewrite skipn_app, Nat.sub_diag, skipn_all. reflexivity.
Qed.

Lemma chunks_concat (n : nat) (Es : list (list A)) :
  Forall (fun e => length e = n) Es ->
  chunks n (length Es) (concat Es) = Es.
Proof.
  induction 1 as [| e Es He _ IH]; cbn; [reflexivity |].
  rewrite firstn_app_exact, skipn_app_exact by exact He.
  rewrite IH. reflexivity.
Qed.

Lemma length_concat_const (n : nat) (Es : list (list A)) :
  Forall (fun e => length e = n) Es ->
  length (concat Es) = length Es * n.
Proof.
  induction 1 as [| e Es He _ IH]; cbn; [reflexivity |].
  rewrite length_app, IH, He. reflexivity.
Qed.

Lemma mapM_bind_ok (C : Type) (f : A -> result B) (g : B -> C) (l : list A) :
  mapM (fun a => b <- f a ;; Ok (g b)) l
  = (bs <- mapM f l ;; Ok (map g bs)).
Proof.
  induction l as [| a l IH]; cbn; [reflexivity |].
  destruct (f a) as [b | e]; cbn; [| reflexivity].
  rewrite IH. destruct (mapM f l); reflexivity.
Qed.

End ListFacts.

Section TensorFacts.

Context {F : Type} {SF : Scalar F}.

Lemma index_z_in_range (row : list F) (i : Z) :
  (0 <= i < Z.of_nat (length row))%Z ->
  index_z row i = Ok (nth (Z.to_nat i) row fzero).
Proof.
  intros H. unfold index_z.
  destruct (Z.ltb_spec i 0) as [Hn | _]; [lia |].
  destruct (Z.leb_spec 0 i) as [_ | Hn]; [| lia].
  destruct (Z.ltb_spec i (Z.of_nat (length row))) as [_ | Hn]; [| lia].
  cbn. destruct (nth_error row (Z.to_nat i)) as [a |] eqn:E.
  - rewrite (nth_error_nth _ _ _ E). reflexivity.
  - apply nth_error_None in E. lia.
Qed.

Lemma vadd_maps (Y : Type) (f g : Y -> F) (ys : list Y) :
  vadd (map f ys) (map g ys) = Ok (map (fun y => fadd (f y) (g y)) ys).
Proof.
  induction ys as [| y ys IH]; cbn; [reflexivity |].
  rewrite IH. reflexivity.
Qed.

Lemma madd_maps (X Y : Type) (f g : X -> Y -> F) (xs : list X) (ys : list Y) :
  madd (map (fun x => map (f x) ys) xs) (map (fun x => map (g x) ys) xs)
  = Ok (map (fun x => map (fun y => fadd (f x y) (g x y)) ys) xs).
Proof.
  induction xs as [| x xs IH]; cbn; [reflexivity |].
  rewrite vadd_maps. cbn. rewrite IH. reflexivity.
Qed.

Lemma split_last_concat (T X : Type) (h : X -> T -> list F) (sz : T -> nat)
      (ts : list T) (C : list (list X)) :
  (forall x t, In t ts -> length (h x t) = sz t) ->
  split_last (map sz ts) (map (map (fun x => concat (map (h x) ts))) C)
  = map (fun t => map (map (fun x => h x t)) C) ts.
Proof.
  induction ts as [| t ts IH]; intros H; cbn; [reflexivity |].
  f_equal.
  - rewrite map_map. apply map_ext. intros e.
    rewrite map_map. apply map_ext. intros x.
    apply firstn_app_exact, H. left. reflexivity.
  - rewrite <- IH by (intros; apply H; right; assumption).
    f_equal. rewrite map_map. apply map_ext. intros e.
    rewrite map_map. apply map_ext. intros x.
    apply skipn_app_exact, H. left. reflexivity.
Qed.

(** Indexing chunk [i] at batch element [i], for the chunks numbered
    from [k] on. *)
Lemma index_chunks (T X : Type) (h : X -> T -> list F) (ts : list T)
      (C : list (list X)) (k : nat) :
  k + length ts <= length C ->
  mapM (fun ic => index_nat (snd ic) (fst ic))
       (combine (seq k (length ts))
                (map (fun t => map (map (fun x => h x t)) C) ts))
  = Ok (map (fun et => map (fun x => h x (snd et)) (fst et))
            (combine (skipn k C) ts)).
Proof.
  revert k. induction ts as [| t ts IH]; intros k Hk; cbn.
  - rewrite combine_nil. reflexivity.
  - cbn in Hk. unfold index_nat at 1. cbn. rewrite nth_error_map.
    destruct (nth_error C k) as [e |] eqn:E; cbn.
    + rewrite IH by lia.
      destruct (skipn k C) as [| e' rest] eqn:Es.
      * apply (f_equal (@length _)) in Es. rewrite length_skipn in Es.
        cbn in Es. lia.
      * assert (E' : nth_error (skipn k C) 0 = Some e).
        { rewrite nth_error_skipn, Nat.add_0_r. exact E. }
        rewrite Es in E'. cbn in E'. inversion E'; subst e'.
        assert (Er : skipn (S k) C = rest).
        { change (S k) with (1 + k). rewrite <- skipn_skipn, Es. reflexivity. }
        rewrite Er. reflexivity.
    + apply nth_error_None in E. lia.
Qed.

Lemma index_chunks_short (T X : Type) (h : X -> T -> list F) (ts : list T)
      (C : list (list X)) (k : nat) :
  k <= length C -> length C < k + length ts ->
  mapM (fun ic => index_nat (snd ic) (fst ic))
       (combine (seq k (length ts))
                (map (fun t => map (map (fun x => h x t)) C) ts))
  = Raise IndexError.
Proof.
  revert k. induction ts as [| t ts IH]; intros k Hk Hlt; cbn in *; [lia |].
  unfold index_nat at 1. cbn. rewrite nth_error_map.
  destruct (nth_error C k) as [e |] eqn:E; cbn; [| reflexivity].
  assert (k < length C) by (apply nth_error_Some; congruence).
  rewrite IH by lia. reflexivity.
Qed.

End TensorFacts.

(** ** The cost matrix and its blocks *)

Section MatcherFacts.

Context {F : Type} {SF : Scalar F}.

Lemma combine_app_eq (A B : Type) (a a' : list A) (b b' : list B) :
  length a = length b ->
  combine (a ++ a') (b ++ b') = combine a b ++ combine a' b'.
Proof.
  revert b. induction a as [| x a IH]; intros [| y b] H; cbn in *;
    try discriminate; [reflexivity |].
  f_equal. apply IH. lia.
Qed.

Lemma flat_queries (L : list (list (list F))) (Bx : list (list (Box F))) :
  Forall2 (fun e b => length b = length e) L Bx ->
  combine (concat Bx) (map softmax (concat L))
  = concat (map queries_of (combine L Bx)).
Proof.
  induction 1 as [| e b L Bx Hb _ IH]; cbn; [reflexivity |].
  rewrite map_app, combine_app_eq by (rewrite length_map; exact Hb).
  rewrite IH. reflexivity.
Qed.

Lemma flat_targets (nc : nat) (targets : list (Target F)) :
  Forall (target_ok nc) targets ->
  combine (concat (map boxes targets)) (concat (map labels targets))
  = concat (map target_entries targets).
Proof.
  induction 1 as [| t ts (Hl & _) _ IH]; cbn; [reflexivity |].
  rewrite combine_app_eq by (symmetry; exact Hl).
  rewrite IH. reflexivity.
Qed.

Lemma flat_targets_length (nc : nat) (targets : list (Target F)) :
  Forall (target_ok nc) targets ->
  length (concat (map boxes targets)) = length (concat (map labels targets)).
Proof.
  induction 1 as [| t ts (Hl & _) _ IH]; cbn; [reflexivity |].
  rewrite !length_app, IH, Hl. reflexivity.
Qed.

Lemma flat_queries_length (L : list (list (list F))) (Bx : list (list (Box F))) :
  Forall2 (fun e b => length b = length e) L Bx ->
  length (concat Bx) = length (map softmax (concat L)).
Proof.
  induction 1 as [| e b L Bx Hb _ IH]; cbn; [reflexivity |].
  rewrite map_app, !length_app, IH, Hb, !length_map. reflexivity.
Qed.

Lemma softmax_length (row : list F) : length (softmax row) = length row.
Proof. unfold softmax. rewrite !length_map. reflexivity. Qed.

(** The cost matrix of a well-shaped batch, entry by entry. *)
Lemma cost_matrix_closed (self : HungarianMatcher F) (outputs : Outputs F)
      (targets : list (Target F)) (bs nq nc : nat) :
  outputs_shape bs nq nc outputs ->
  boxes_ok outputs ->
  Forall (target_ok nc) targets ->
  targets <> [] ->
  cost_matrix self outputs targets
  = Ok (map (fun x => map (entry_cost self x)
                          (concat (map target_entries targets)))
            (concat (batch_queries outputs))).
Proof.
  intros (Hbs & Hrows & Hbx) Hok Hts Hne.
  unfold cost_matrix, batch_queries.
  assert (Ec1 : torch_cat (map labels targets) = Ok (concat (map labels targets))).
  { destruct targets; [congruence | reflexivity]. }
  assert (Ec2 : torch_cat (map boxes targets) = Ok (concat (map boxes targets))).
  { destruct targets; [congruence | reflexivity]. }
  rewrite Ec1, Ec2. cbn [bind].
  rewrite <- (flat_targets Hts), <- (flat_queries Hbx).
  pose proof (flat_targets_length Hts) as HlY.
  pose proof (flat_queries_length Hbx) as HlX.
  assert (Hids : Forall (fun id => (0 <= id < Z.of_nat nc)%Z)
                        (concat (map labels targets))).
  { clear - Hts. induction Hts as [| t ts (_ & Hl & _) _ IH]; cbn; [constructor |].
    apply Forall_app. split; assumption. }
  assert (Hprob : Forall (fun p => length p = nc)
                         (map softmax (concat (pred_logits outputs)))).
  { clear - Hrows. induction Hrows as [| e L (_ & He) _ IH]; cbn; [constructor |].
    rewrite map_app. apply Forall_app. split; [| exact IH].
    apply Forall_map. eapply Forall_impl; [| exact He].
    cbn. intros row Hr. rewrite softmax_length. exact Hr. }
  assert (HokX : forallb box_ok (concat (pred_boxes outputs)) = true).
  { apply forallb_forall. intros b Hb. apply in_concat in Hb.
    destruct Hb as (e & He & Hb). unfold boxes_ok in Hok.
    rewrite Forall_forall in Hok. specialize (Hok e He).
    rewrite Forall_forall in Hok. apply Hok, Hb. }
  assert (HokY : forallb box_ok (concat (map boxes targets)) = true).
  { apply forallb_forall. intros b Hb. apply in_concat in Hb.
    destruct Hb as (e & He & Hb). apply in_map_iff in He.
    destruct He as (t & <- & Ht). rewrite Forall_forall in Hts.
    destruct (Hts t Ht) as (_ & _ & Hb'). rewrite Forall_forall in Hb'.
    apply Hb', Hb. }
  remember (concat (pred_boxes outputs)) as out_bbox eqn:E1.
  remember (map softmax (concat (pred_logits outputs))) as out_prob eqn:E2.
  remember (concat (map labels targets)) as tgt_ids eqn:E3.
  remember (concat (map boxes targets)) as tgt_bbox eqn:E4.
  clear E1 E2 E3 E4 Ec1 Ec2.
  rewrite (@mapM_total _ _ _
             (fun p => map (fun id => fneg (nth (Z.to_nat id) p fzero)) tgt_ids)).
  2:{ intros p Hp. apply mapM_total. intros id Hid.
      rewrite Forall_forall in Hprob, Hids.
      rewrite index_z_in_range by (rewrite (Hprob p Hp); apply Hids, Hid).
      reflexivity. }
  cbn [bind]. unfold generalized_box_iou. rewrite HokX, HokY. cbn [bind].
  unfold cdist_l1, mscale.
  set (X := combine out_bbox out_prob).
  set (Y := combine tgt_bbox tgt_ids).
  assert (HX1 : out_bbox = map fst X) by (symmetry; apply map_fst_combine_eq, HlX).
  assert (HX2 : out_prob = map snd X) by (symmetry; apply map_snd_combine_eq, HlX).
  assert (HY1 : tgt_bbox = map fst Y) by (symmetry; apply map_fst_combine_eq, HlY).
  assert (HY2 : tgt_ids = map snd Y) by (symmetry; apply map_snd_combine_eq, HlY).
  clearbody X Y. subst out_bbox out_prob tgt_bbox tgt_ids.
  rewrite !map_map.
  rewrite (map_ext (fun x => map (fmul (cost_bbox self))
                                 (map (fun b => l1_pair (fst x) b) (map fst Y)))
                   (fun x => map (fun y => fmul (cost_bbox self)
                                                (l1_pair (fst x) (fst y))) Y))
    by (intros; rewrite !map_map; reflexivity).
  rewrite (map_ext (fun x => map (fmul (cost_class self))
                                 (map (fun id => fneg (nth (Z.to_nat id) (snd x) fzero))
                                      (map snd Y)))
                   (fun x => map (fun y => fmul (cost_class self)
                                                (fneg (nth (Z.to_nat (snd y)) (snd x) fzero))) Y))
    by (intros; rewrite !map_map; reflexivity).
  rewrite madd_maps. cbn [bind].
  rewrite (map_ext (fun x => map (fmul (cost_giou self))
                                 (map fneg (map (fun b => giou_pair (fst x) b) (map fst Y))))
                   (fun x => map (fun y => fmul (cost_giou self)
                                                (fneg (giou_pair (fst x) (fst y)))) Y))
    by (intros; rewrite !map_map; reflexivity).
  rewrite madd_maps. reflexivity.
Qed.

Lemma batch_queries_shape (outputs : Outputs F) (bs nq nc : nat) :
  outputs_shape bs nq nc outputs ->
  length (batch_queries outputs) = bs
  /\ Forall (fun e => length e = nq) (batch_queries outputs).
Proof.
  intros (Hbs & Hrows & Hbx). unfold batch_queries.
  rewrite length_map. subst bs.
  induction Hbx as [| e b L Bx Hb _ IH]; cbn; [split; constructor |].
  inversion Hrows as [| ? ? (He & _) Hrest]; subst.
  destruct (IH Hrest) as [IH1 IH2].
  split; [f_equal; exact IH1 | constructor; [| exact IH2]].
  unfold queries_of. cbn. rewrite length_combine, length_map, Hb. lia.
Qed.

Lemma cost_chunks_closed (self : HungarianMatcher F) (outputs : Outputs F)
      (targets : list (Target F)) (bs nq nc : nat) :
  outputs_shape bs nq nc outputs ->
  boxes_ok outputs ->
  Forall (target_ok nc) targets ->
  targets <> [] -> 1 <= bs -> 1 <= nq ->
  cost_chunks self outputs targets
  = Ok (map (fun t => map (map (fun x => map (entry_cost self x)
                                             (target_entries t)))
                          (batch_queries outputs))
            targets).
Proof.
  intros Hshape Hok Hts Hne Hbs1 Hnq1.
  unfold cost_chunks.
  rewrite (cost_matrix_closed self Hshape Hok Hts Hne). cbn [bind].
  destruct (batch_queries_shape Hshape) as [HlX HXs].
  destruct Hshape as (Hbs & Hrows & Hbx).
  assert (Hnq : length (hd [] (pred_logits outputs)) = nq).
  { destruct (pred_logits outputs) as [| e L]; cbn in *; [lia |].
    inversion Hrows as [| ? ? (He & _) _]. exact He. }
  rewrite Hbs, Hnq. unfold view3.
  destruct (Nat.eqb_spec (bs * nq) 0) as [E0 | _]; [nia |].
  rewrite length_map, (length_concat_const HXs), HlX, Nat.eqb_refl.
  cbn [bind]. f_equal.
  rewrite concat_map.
  assert (Hl : length (map (map (fun x => map (entry_cost self x)
                                              (concat (map target_entries targets))))
                           (batch_queries outputs)) = bs)
    by (rewrite length_map; exact HlX).
  rewrite <- Hl at 1. rewrite chunks_concat.
  2:{ apply Forall_map. eapply Forall_impl; [| exact HXs].
      cbn. intros e He. rewrite length_map. exact He. }
  rewrite (map_ext (map (fun x => map (entry_cost self x)
                                      (concat (map target_entries targets))))
                   (map (fun x => concat (map (fun t => map (entry_cost self x)
                                                            (target_entries t))
                                              targets)))).
  2:{ intros e. apply map_ext. intros x. rewrite concat_map, map_map. reflexivity. }
  apply (split_last_concat
           (fun x t => map (entry_cost self x) (target_entries t))
           (fun v => length (boxes v))).
  intros x t Ht. rewrite length_map. unfold target_entries.
  rewrite Forall_forall in Hts. destruct (Hts t Ht) as (Hl' & _).
  rewrite length_combine. lia.
Qed.

(** The blocks handed to the solver, when there are no more targets
    than batch elements: block [b] is the block of the queries of batch
    element [b] against target [b]. *)
Lemma cost_blocks_closed (self : HungarianMatcher F) (outputs : Outputs F)
      (targets : list (Target F)) (bs nq nc : nat) :
  outputs_shape bs nq nc outputs ->
  boxes_ok outputs ->
  Forall (target_ok nc) targets ->
  targets <> [] -> 1 <= bs -> 1 <= nq ->
  length targets <= bs ->
  cost_blocks self outputs targets
  = Ok (map (fun et => block_of self (fst et) (snd et))
            (combine (batch_queries outputs) targets)).
Proof.
  intros Hshape Hok Hts Hne Hbs1 Hnq1 Hlen.
  unfold cost_blocks.
  rewrite (cost_chunks_closed self Hshape Hok Hts Hne Hbs1 Hnq1). cbn [bind].
  unfold enumerate. rewrite length_map.
  destruct (batch_queries_shape Hshape) as [HlX _].
  rewrite (index_chunks (fun x t => map (entry_cost self x) (target_entries t)))
    by (rewrite HlX; cbn; exact Hlen).
  reflexivity.
Qed.

Lemma forward_blocks (self : HungarianMatcher F) (outputs : Outputs F)
      (targets : list (Target F)) :
  forward self outputs targets
  = (blocks <- cost_blocks self outputs targets ;;
     Ok (map linear_sum_assignment blocks)).
Proof.
  unfold forward, cost_blocks.
  destruct (cost_chunks self outputs targets) as [cs | e]; cbn [bind];
    [| reflexivity].
  apply mapM_bind_ok.
Qed.

Lemma cost_blocks_too_many (self : HungarianMatcher F) (outputs : Outputs F)
      (targets : list (Target F)) (bs nq nc : nat) :
  outputs_shape bs nq nc outputs ->
  boxes_ok outputs ->
  Forall (target_ok nc) targets ->
  1 <= bs -> 1 <= nq ->
  bs < length targets ->
  cost_blocks self outputs targets = Raise IndexError.
Proof.
  intros Hshape Hok Hts Hbs1 Hnq1 Hlen.
  assert (Hne : targets <> []) by (destruct targets; cbn in *; [lia | discriminate]).
  unfold cost_blocks.
  rewrite (cost_chunks_closed self Hshape Hok Hts Hne Hbs1 Hnq1). cbn [bind].
  unfold enumerate. rewrite length_map.
  destruct (batch_queries_shape Hshape) as [HlX _].
  apply (index_chunks_short (fun x t => map (entry_cost self x) (target_entries t)));
    rewrite HlX; lia.
Qed.

End MatcherFacts.

Section MatcherClaims.

Context {F : Type} {SF : Scalar F}.

Lemma nth_error_combine_some (A B : Type) (l1 : list A) (l2 : list B)
      (i : nat) (a : A) (b : B) :
  nth_error l1 i = Some a -> nth_error l2 i = Some b ->
  nth_error (combine l1 l2) i = Some (a, b).
Proof.
  revert l2 i. induction l1 as [| x l1 IH]; intros [| y l2] [| i] H1 H2;
    cbn in *; try discriminate.
  - inversion H1; inversion H2; reflexivity.
  - apply IH; assumption.
Qed.

Lemma nth_error_block (self : HungarianMatcher F) (outputs : Outputs F)
      (targets : list (Target F)) (b : nat) (E : list (list F))
      (Bx : list (Box F)) (tg : Target F) :
  nth_error (pred_logits outputs) b = Some E ->
  nth_error (pred_boxes outputs) b = Some Bx ->
  nth_error targets b = Some tg ->
  nth_error (map (fun et => block_of self (fst et) (snd et))
                 (combine (batch_queries outputs) targets)) b
  = Some (block_of self (queries_of (E, Bx)) tg).
Proof.
  intros HE HB Ht. rewrite nth_error_map.
  rewrite (@nth_error_combine_some _ _ _ _ b (queries_of (E, Bx)) tg);
    [reflexivity | | exact Ht].
  unfold batch_queries. rewrite nth_error_map.
  rewrite (nth_error_combine_some _ _ _ HE HB). reflexivity.
Qed.

(** C2.  On a batch of the documented shapes (at least one batch element
    and one query, boxes that pass the check, labels that are classes)
    with as many targets as batch elements, the blocks handed to the
    solver are one per batch element; block [b] has one row per query of
    batch element [b] and one column per target entry of target [b], and
    its entry [(q, t)] is
    [cost_bbox * L1 + cost_class * (- P) + cost_giou * (- GIoU)] for
    query [q] and target entry [t] of batch element [b], [P] being the
    softmax of the query's logits at the entry's label.  [forward]
    returns the solver's result on each of these blocks. *)
Theorem cost_blocks_entries (self : HungarianMatcher F) (outputs : Outputs F)
        (targets : list (Target F)) (bs nq nc : nat) :
  outputs_shape bs nq nc outputs ->
  boxes_ok outputs ->
  Forall (target_ok nc) targets ->
  1 <= bs -> 1 <= nq ->
  length targets = bs ->
  exists blocks,
    cost_blocks self outputs targets = Ok blocks
    /\ forward self outputs targets = Ok (map linear_sum_assignment blocks)
    /\ length blocks = bs
    /\ forall b E Bx tg,
        nth_error (pred_logits outputs) b = Some E ->
        nth_error (pred_boxes outputs) b = Some Bx ->
        nth_error targets b = Some tg ->
        exists blk,
          nth_error blocks b = Some blk
          /\ length blk = nq
          /\ Forall (fun row => length row = length (boxes tg)) blk
          /\ forall q t logits qbox label tbox,
              nth_error E q = Some logits ->
              nth_error Bx q = Some qbox ->
              nth_error (labels tg) t = Some label ->
              nth_error (boxes tg) t = Some tbox ->
              exists row,
                nth_error blk q = Some row
                /\ nth_error row t
                   = Some (pair_cost self logits qbox label tbox).
Proof.
  intros Hshape Hok Hts Hbs1 Hnq1 Hlen.
  assert (Hne : targets <> []) by (destruct targets; cbn in *; [lia | discriminate]).
  pose proof (cost_blocks_closed self Hshape Hok Hts Hne Hbs1 Hnq1
                                 (Nat.eq_le_incl _ _ Hlen)) as Hblocks.
  destruct (batch_queries_shape Hshape) as [HlX HXs].
  eexists. split; [exact Hblocks |].
  split; [rewrite forward_blocks, Hblocks; reflexivity |].
  split; [rewrite length_map, length_combine, HlX, Hlen; apply Nat.min_id |].
  intros b E Bx tg HE HB Ht.
  exists (block_of self (queries_of (E, Bx)) tg).
  split; [apply nth_error_block; assumption |].
  assert (Hq : In (queries_of (E, Bx)) (batch_queries outputs)).
  { unfold batch_queries. apply in_map.
    eapply nth_error_In, nth_error_combine_some; eassumption. }
  assert (Htg : target_ok nc tg).
  { rewrite Forall_forall in Hts. eapply Hts, nth_error_In, Ht. }
  split; [unfold block_of; rewrite length_map;
          rewrite Forall_forall in HXs; apply HXs, Hq |].
  split.
  - unfold block_of. apply Forall_map, Forall_forall. intros x _.
    rewrite length_map. unfold target_entries. rewrite length_combine.
    destruct Htg as (Hl & _). lia.
  - intros q t logits qbox label tbox Hlg Hqb Hlab Htb.
    exists (map (entry_cost self (qbox, softmax logits)) (target_entries tg)).
    split.
    + unfold block_of. rewrite nth_error_map. unfold queries_of. cbn [fst snd].
      rewrite (@nth_error_combine_some _ _ _ _ q qbox (softmax logits));
        [reflexivity | exact Hqb |].
      rewrite nth_error_map, Hlg. reflexivity.
    + rewrite nth_error_map. unfold target_entries.
      rewrite (nth_error_combine_some _ _ _ Htb Hlab). reflexivity.
Qed.

(** C5, as the code has it.  [forward] does not compare the number of
    batch elements of the predictions with the number of targets.  On a
    batch of the documented shapes: with at least one target and no more
    targets than batch elements it returns one assignment per target,
    target [b] being matched with the queries of batch element [b]; with
    more targets than batch elements it raises [IndexError], when it
    indexes the chunk of the first target that has no batch element,
    the cost matrix being built and split by then; with no target it
    raises [RuntimeError], in [torch.cat]. *)
Theorem forward_batch_lengths (self : HungarianMatcher F) (outputs : Outputs F)
        (targets : list (Target F)) (bs nq nc : nat) :
  outputs_shape bs nq nc outputs ->
  boxes_ok outputs ->
  Forall (target_ok nc) targets ->
  1 <= bs -> 1 <= nq ->
  (1 <= length targets <= bs ->
   forward self outputs targets
   = Ok (map (fun et => linear_sum_assignment (block_of self (fst et) (snd et)))
             (combine (batch_queries outputs) targets))
   /\ exists r, forward self outputs targets = Ok r
                /\ length r = length targets)
  /\ (bs < length targets ->
      forward self outputs targets = Raise IndexError
      /\ exists cs, cost_chunks self outputs targets = Ok cs)
  /\ (length targets = 0 ->
      forward self outputs targets = Raise RuntimeError).
Proof.
  intros Hshape Hok Hts Hbs1 Hnq1.
  destruct (batch_queries_shape Hshape) as [HlX _].
  split; [| split].
  - intros [H1 H2].
    assert (Hne : targets <> []) by (destruct targets; cbn in *; [lia | discriminate]).
    rewrite forward_blocks,
      (cost_blocks_closed self Hshape Hok Hts Hne Hbs1 Hnq1 H2).
    cbn [bind]. rewrite map_map. split; [reflexivity |].
    eexists. split; [reflexivity |].
    rewrite length_map, length_combine, HlX. lia.
  - intros H. split.
    + rewrite forward_blocks,
        (cost_blocks_too_many self Hshape Hok Hts Hbs1 Hnq1 H).
      reflexivity.
    + assert (Hne : targets <> [])
        by (destruct targets; cbn in *; [lia | discriminate]).
      eexists. apply (cost_chunks_closed self Hshape Hok Hts Hne Hbs1 Hnq1).
  - intros H. destruct targets; [reflexivity | discriminate].
Qed.

End MatcherClaims.

(** ** The exhaustive search *)

Section SearchFacts.

Lemma nil_in_matchings (rows cols : list nat) : In [] (matchings rows cols).
Proof.
  induction rows as [| r rs IH]; cbn; [left; reflexivity |].
  apply in_or_app. left. exact IH.
Qed.

Lemma matchings_no_cols (rows : list nat) : matchings rows [] = [[]].
Proof.
  induction rows as [| r rs IH]; cbn; [reflexivity |].
  rewrite IH. reflexivity.
Qed.

Lemma StronglySorted_seq (a n : nat) : StronglySorted lt (seq a n).
Proof.
  revert a. induction n as [| n IH]; intros a; cbn; constructor.
  - apply IH.
  - apply Forall_forall. intros x Hx. apply in_seq in Hx. lia.
Qed.

Lemma StronglySorted_lt_NoDup (l : list nat) : StronglySorted lt l -> NoDup l.
Proof.
  induction 1 as [| a l _ IH Ha]; constructor; [| exact IH].
  intros Hin. rewrite Forall_forall in Ha. specialize (Ha a Hin). lia.
Qed.

(** Every enumerated assignment takes its rows in order from [rows] and
    its columns, all different, from [cols]. *)
Lemma matchings_sound (rows cols : list nat) (m : list (nat * nat)) :
  StronglySorted lt rows ->
  In m (matchings rows cols) ->
  StronglySorted lt (map fst m)
  /\ incl (map fst m) rows
  /\ NoDup (map snd m)
  /\ incl (map snd m) cols.
Proof.
  intros Hs. revert cols m.
  induction Hs as [| r rs Hs IH Hr]; intros cols m Hin; cbn in Hin.
  - destruct Hin as [<- | []]. cbn.
    repeat split; try constructor; intros x [].
  - apply in_app_or in Hin. destruct Hin as [Hin | Hin].
    + destruct (IH _ _ Hin) as (H1 & H2 & H3 & H4).
      repeat split; auto. intros x Hx. right. apply H2, Hx.
    + apply in_flat_map in Hin. destruct Hin as (c & Hc & Hin).
      apply in_map_iff in Hin. destruct Hin as (m' & <- & Hm').
      destruct (IH _ _ Hm') as (H1 & H2 & H3 & H4). cbn.
      repeat split.
      * constructor; [exact H1 |].
        apply Forall_forall. intros x Hx. rewrite Forall_forall in Hr.
        apply Hr, H2, Hx.
      * intros x [<- | Hx]; [left; reflexivity | right; apply H2, Hx].
      * constructor; [| exact H3].
        intros Hin. apply H4 in Hin. apply in_remove in Hin.
        destruct Hin as [_ Hn]. apply Hn. reflexivity.
      * intros x [<- | Hx]; [exact Hc |].
        apply H4 in Hx. apply in_remove in Hx. apply Hx.
Qed.

(** Every such assignment is enumerated. *)
Lemma matchings_complete (rows cols : list nat) (m : list (nat * nat)) :
  StronglySorted lt rows ->
  StronglySorted lt (map fst m) ->
  incl (map fst m) rows ->
  NoDup (map snd m) ->
  incl (map snd m) cols ->
  In m (matchings rows cols).
Proof.
  intros Hs. revert cols m.
  induction Hs as [| r rs Hs IH Hr]; intros cols m Hm Hi Hn Hc.
  - destruct m as [| p m]; [left; reflexivity |].
    exfalso. apply (Hi (fst p)). left. reflexivity.
  - destruct m as [| [a c] m]; [apply nil_in_matchings |].
    cbn in *. inversion Hm as [| ? ? Hm' Ha]; subst.
    inversion Hn as [| ? ? Hc0 Hn']; subst.
    rewrite Forall_forall in Hr, Ha.
    apply in_or_app.
    destruct (Hi a (or_introl eq_refl)) as [E | Hars].
    + subst a. right. apply in_flat_map. exists c.
      split; [apply Hc; left; reflexivity |].
      apply in_map. apply IH; [exact Hm' | | exact Hn' |].
      * intros x Hx. destruct (Hi x (or_intror Hx)) as [E | Hx']; [| exact Hx'].
        subst x. specialize (Ha r Hx). lia.
      * intros x Hx. apply in_in_remove.
        -- intros E. subst x. apply Hc0, Hx.
        -- apply Hc. right. exact Hx.
    + left. apply IH; [exact Hm | | exact Hn | exact Hc].
      pose proof (Hr a Hars) as Hra.
      intros x [E | Hx]; [subst x; exact Hars |].
      destruct (Hi x (or_intror Hx)) as [E | Hx']; [| exact Hx'].
      subst x. specialize (Ha r Hx). lia.
Qed.

Lemma is_matching_enumerated (nr nc : nat) (m : list (nat * nat)) :
  is_matching nr nc m <-> In m (matchings (seq 0 nr) (seq 0 nc)).
Proof.
  unfold is_matching. split.
  - intros (H1 & H2 & H3). rewrite Forall_forall in H3.
    apply matchings_complete; auto using StronglySorted_seq.
    + intros x Hx. apply in_map_iff in Hx. destruct Hx as (p & <- & Hp).
      apply in_seq. destruct (H3 p Hp). lia.
    + intros x Hx. apply in_map_iff in Hx. destruct Hx as (p & <- & Hp).
      apply in_seq. destruct (H3 p Hp). lia.
  - intros H. apply matchings_sound in H; [| apply StronglySorted_seq].
    destruct H as (H1 & H2 & H3 & H4). repeat split; auto.
    apply Forall_forall. intros p Hp. split.
    + assert (Hx : In (fst p) (seq 0 nr)) by (apply H2, in_map, Hp).
      apply in_seq in Hx. lia.
    + assert (Hx : In (snd p) (seq 0 nc)) by (apply H4, in_map, Hp).
      apply in_seq in Hx. lia.
Qed.

(** The diagonal is a matching of full size. *)
Lemma diagonal_matching (nr nc : nat) :
  let d := map (fun i => (i, i)) (seq 0 (Nat.min nr nc)) in
  is_matching nr nc d /\ length d = Nat.min nr nc.
Proof.
  cbn. split; [| rewrite length_map, length_seq; reflexivity].
  unfold is_matching. rewrite !map_map. cbn. rewrite map_id.
  split; [apply StronglySorted_seq |].
  split; [apply seq_NoDup |].
  apply Forall_map, Forall_forall. intros i Hi. apply in_seq in Hi. cbn. lia.
Qed.

Lemma combine_fst_snd (A B : Type) (m : list (A * B)) :
  combine (map fst m) (map snd m) = m.
Proof.
  induction m as [| [a b] m IH]; cbn; [reflexivity |]. rewrite IH. reflexivity.
Qed.

End SearchFacts.

Section SolverFacts.

Context {F : Type} {SF : Scalar F} {SO : ScalarOrder F}.

Lemma fltb_true_fleb (x y : F) : fltb x y = true -> fleb x y = true.
Proof.
  rewrite fltb_fleb. intros H. apply negb_true_iff in H.
  destruct (fleb_total x y) as [H' | H']; [exact H' | congruence].
Qed.

Lemma fltb_false_fleb (x y : F) : fltb x y = false -> fleb y x = true.
Proof. rewrite fltb_fleb. intros H. apply negb_false_iff in H. exact H. Qed.

Lemma fleb_refl (x : F) : fleb x x = true.
Proof. destruct (fleb_total x x); assumption. Qed.

Lemma argmin_least (A : Type) (f : A -> F) (l : list A) (best : A) :
  In (argmin f best l) (best :: l)
  /\ forall x, In x (best :: l) -> fleb (f (argmin f best l)) (f x) = true.
Proof.
  revert best. induction l as [| a l IH]; intros best; cbn [argmin].
  - split; [left; reflexivity |].
    intros x [<- | []]. apply fleb_refl.
  - destruct (IH (if fltb (f a) (f best) then a else best)) as [Hin Hle].
    split.
    + destruct Hin as [E | Hin]; [| right; right; exact Hin].
      rewrite <- E. destruct (fltb (f a) (f best)); [right; left | left]; reflexivity.
    + intros x Hx.
      assert (Hb : fleb (f (argmin f (if fltb (f a) (f best) then a else best) l))
                        (f best) = true
                   /\ fleb (f (argmin f (if fltb (f a) (f best) then a else best) l))
                           (f a) = true).
      { pose proof (Hle _ (or_introl eq_refl)) as H0.
        destruct (fltb (f a) (f best)) eqn:E.
        - split; [| exact H0].
          eapply fleb_trans; [exact H0 | apply fltb_true_fleb, E].
        - split; [exact H0 |].
          eapply fleb_trans; [exact H0 | apply fltb_false_fleb, E]. }
      destruct Hx as [<- | [<- | Hx]]; [apply Hb | apply Hb |].
      apply Hle. right. exact Hx.
Qed.

(** The exhaustive search returns a matching of [min nr nc] pairs of
    least total cost. *)
Lemma best_matching_optimal (c : list (list F)) :
  let nr := length c in
  let nc := length (hd [] c) in
  is_matching nr nc (best_matching c)
  /\ length (best_matching c) = Nat.min nr nc
  /\ forall m', is_matching nr nc m' -> length m' = Nat.min nr nc ->
                fleb (total_cost c (best_matching c)) (total_cost c m') = true.
Proof.
  intros nr nc. unfold best_matching. fold nr nc.
  set (cands := filter (fun m => (length m =? Nat.min nr nc)%nat)
                       (matchings (seq 0 nr) (seq 0 nc))).
  assert (Hc : forall m, In m cands <->
                         is_matching nr nc m /\ length m = Nat.min nr nc).
  { intros m. unfold cands. rewrite filter_In, Nat.eqb_eq, is_matching_enumerated.
    reflexivity. }
  destruct cands as [| m0 ms] eqn:E.
  - exfalso. destruct (diagonal_matching nr nc) as [H1 H2].
    apply (proj2 (Hc _) (conj H1 H2)).
  - destruct (argmin_least (total_cost c) ms m0) as [Hin Hle].
    apply Hc in Hin. destruct Hin as [H1 H2].
    split; [exact H1 | split; [exact H2 |]].
    intros m' Hm' Hl'. apply Hle, Hc. split; assumption.
Qed.

Lemma linear_sum_assignment_optimal (c : list (list F)) :
  optimal_assignment c (length c) (length (hd [] c)) (linear_sum_assignment c).
Proof.
  destruct (best_matching_optimal c) as (H1 & H2 & H3).
  unfold optimal_assignment, linear_sum_assignment. cbn [fst snd].
  rewrite combine_fst_snd, !length_map.
  repeat split; auto; try apply H1.
  apply StronglySorted_lt_NoDup, H1.
Qed.

End SolverFacts.

(** ** What [forward] returns *)

Section ForwardFacts.

Context {F : Type} {SF : Scalar F}.

(** The blocks of a batch with as many targets as batch elements. *)
Lemma blocks_of_batch (self : HungarianMatcher F) (outputs : Outputs F)
      (targets : list (Target F)) (bs nq nc : nat) :
  outputs_shape bs nq nc outputs ->
  boxes_ok outputs ->
  Forall (target_ok nc) targets ->
  1 <= bs -> 1 <= nq ->
  length targets = bs ->
  exists blocks,
    cost_blocks self outputs targets = Ok blocks
    /\ forward self outputs targets = Ok (map linear_sum_assignment blocks)
    /\ length blocks = bs
    /\ forall b tg,
        nth_error targets b = Some tg ->
        exists e,
          nth_error (batch_queries outputs) b = Some e
          /\ length e = nq
          /\ length (labels tg) = length (boxes tg)
          /\ nth_error blocks b = Some (block_of self e tg).
Proof.
  intros Hshape Hok Hts Hbs1 Hnq1 Hlen.
  assert (Hne : targets <> []) by (destruct targets; cbn in *; [lia | discriminate]).
  pose proof (cost_blocks_closed self Hshape Hok Hts Hne Hbs1 Hnq1
                                 (Nat.eq_le_incl _ _ Hlen)) as Hblocks.
  destruct (batch_queries_shape Hshape) as [HlX HXs].
  eexists. split; [exact Hblocks |].
  split; [rewrite forward_blocks, Hblocks; reflexivity |].
  split; [rewrite length_map, length_combine, HlX, Hlen; apply Nat.min_id |].
  intros b tg Ht.
  assert (Hb : b < length (batch_queries outputs)).
  { rewrite HlX, <- Hlen. apply nth_error_Some. congruence. }
  destruct (nth_error (batch_queries outputs) b) as [e |] eqn:Ee;
    [| apply nth_error_None in Ee; lia].
  exists e. split; [reflexivity |].
  rewrite Forall_forall in HXs, Hts.
  split; [apply HXs; eapply nth_error_In; exact Ee |].
  split; [apply (Hts tg); eapply nth_error_In; exact Ht |].
  rewrite nth_error_map, (nth_error_combine_some _ _ _ Ee Ht). reflexivity.
Qed.

Lemma block_shape (self : HungarianMatcher F) (e : list (Box F * list F))
      (tg : Target F) :
  1 <= length e ->
  length (labels tg) = length (boxes tg) ->
  length (block_of self e tg) = length e
  /\ length (hd [] (block_of self e tg)) = length (boxes tg).
Proof.
  intros He Hl. unfold block_of. rewrite length_map. split; [reflexivity |].
  destruct e as [| x e]; cbn in *; [lia |].
  rewrite length_map. unfold target_entries. rewrite length_combine. lia.
Qed.

Lemma block_without_target (self : HungarianMatcher F)
      (e : list (Box F * list F)) (tg : Target F) :
  boxes tg = [] -> hd [] (block_of self e tg) = [].
Proof.
  intros Hb. unfold block_of, target_entries. rewrite Hb. cbn.
  destruct e; reflexivity.
Qed.

Lemma linear_sum_assignment_no_columns (c : list (list F)) :
  hd [] c = [] -> linear_sum_assignment c = ([], []).
Proof.
  intros H. unfold linear_sum_assignment, best_matching. rewrite H. cbn [length seq].
  rewrite matchings_no_cols, Nat.min_0_r. reflexivity.
Qed.

(** C4.  On a batch of the documented shapes (at least one query), a
    batch element whose target has no entry gets the empty assignment,
    and the call does not fail. *)
Theorem forward_empty_target (self : HungarianMatcher F) (outputs : Outputs F)
        (targets : list (Target F)) (bs nq nc b : nat) (tg : Target F) :
  outputs_shape bs nq nc outputs ->
  boxes_ok outputs ->
  Forall (target_ok nc) targets ->
  1 <= bs -> 1 <= nq ->
  length targets = bs ->
  nth_error targets b = Some tg ->
  boxes tg = [] ->
  exists res,
    forward self outputs targets = Ok res
    /\ length res = bs
    /\ nth_error res b = Some ([], []).
Proof.
  intros Hshape Hok Hts Hbs1 Hnq1 Hlen Ht Hempty.
  destruct (blocks_of_batch self Hshape Hok Hts Hbs1 Hnq1 Hlen)
    as (blocks & _ & Hf & Hl & Hb).
  destruct (Hb b tg Ht) as (e & _ & _ & _ & Hblk).
  exists (map linear_sum_assignment blocks).
  split; [exact Hf | split; [rewrite length_map; exact Hl |]].
  rewrite nth_error_map, Hblk. cbn.
  rewrite linear_sum_assignment_no_columns; [reflexivity |].
  apply block_without_target, Hempty.
Qed.

End ForwardFacts.

(** ** Matchings listed in any order *)

Section AnyOrder.

Lemma insert_by_row (p : nat * nat) (l : list (nat * nat)) :
  StronglySorted lt (map fst l) ->
  ~ In (fst p) (map fst l) ->
  exists l', Permutation l' (p :: l) /\ StronglySorted lt (map fst l').
Proof.
  induction l as [| q l IH]; intros Hs Hn.
  - exists [p]. split; [reflexivity | repeat constructor].
  - cbn in Hs, Hn. inversion Hs as [| ? ? Hs' Hq]; subst.
    destruct (Nat.lt_ge_cases (fst p) (fst q)) as [Hlt | Hge].
    + exists (p :: q :: l). split; [reflexivity |].
      cbn. constructor; [exact Hs |].
      constructor; [exact Hlt |].
      rewrite Forall_forall in *. intros x Hx. specialize (Hq x Hx). lia.
    + destruct IH as (l' & Hp & Hl'); [exact Hs' | intros H; apply Hn; right; exact H |].
      exists (q :: l'). split.
      * rewrite Hp. apply perm_swap.
      * cbn. constructor; [exact Hl' |].
        apply Forall_forall. intros x Hx.
        apply (Permutation_in _ (Permutation_map fst Hp)) in Hx.
        destruct Hx as [<- | Hx].
        -- assert (fst p <> fst q) by (intros E; apply Hn; left; symmetry; exact E).
           lia.
        -- rewrite Forall_forall in Hq. apply Hq, Hx.
Qed.

(** The pairs of a matching can be listed by increasing row. *)
Lemma matching_set_listed (nr nc : nat) (m : list (nat * nat)) :
  is_matching_set nr nc m ->
  exists m', Permutation m' m /\ is_matching nr nc m'.
Proof.
  intros (H1 & H2 & H3).
  assert (Hs : exists m', Permutation m' m /\ StronglySorted lt (map fst m')).
  { clear H2 H3. induction m as [| p m IH].
    - exists []. split; [reflexivity | constructor].
    - cbn in H1. inversion H1 as [| ? ? Hn H1']; subst.
      destruct (IH H1') as (m0 & Hp0 & Hs0).
      destruct (insert_by_row p m0 Hs0) as (m' & Hp & Hs').
      + intros Hin. apply Hn.
        apply (Permutation_in _ (Permutation_map fst Hp0)), Hin.
      + exists m'. split; [| exact Hs'].
        rewrite Hp. constructor. exact Hp0. }
  destruct Hs as (m' & Hp & Hs). exists m'. split; [exact Hp |].
  split; [exact Hs |].
  split.
  - apply (Permutation_NoDup (Permutation_sym (Permutation_map snd Hp))), H2.
  - apply (Permutation_Forall (Permutation_sym Hp)), H3.
Qed.

Lemma Qsum_acc (l : list Q) (a a' : Q) :
  (a == a')%Q -> (fold_left fadd l a == fold_left fadd l a')%Q.
Proof.
  revert a a'. induction l as [| x l IH]; intros a a' E; cbn [fold_left];
    [exact E |].
  apply IH. change (Qred (a + x) == Qred (a' + x))%Q.
  rewrite !Qred_correct, E. reflexivity.
Qed.

Lemma Qsum_perm (l l' : list Q) :
  Permutation l l' ->
  forall a : Q, (fold_left fadd l a == fold_left fadd l' a)%Q.
Proof.
  induction 1 as [| x l l' _ IH | x y l | l1 l2 l3 _ IH1 _ IH2]; intros a;
    cbn [fold_left].
  - reflexivity.
  - apply IH.
  - apply Qsum_acc.
    change (Qred (Qred (a + y) + x) == Qred (Qred (a + x) + y))%Q.
    rewrite !Qred_correct. ring.
  - rewrite IH1. apply IH2.
Qed.

(** On the rationals the solver is at least as good as every one-to-one
    matching of full size, in whatever order its pairs are listed. *)
Lemma linear_sum_assignment_least (c : list (list Q)) (m' : list (nat * nat)) :
  is_matching_set (length c) (length (hd [] c)) m' ->
  length m' = Nat.min (length c) (length (hd [] c)) ->
  (total_cost c (combine (fst (linear_sum_assignment c))
                         (snd (linear_sum_assignment c)))
   <= total_cost c m')%Q.
Proof.
  intros Hm Hl.
  destruct (matching_set_listed Hm) as (m0 & Hp & Hm0).
  destruct (best_matching_optimal c) as (_ & _ & Hbest).
  specialize (Hbest m0 Hm0).
  rewrite (Permutation_length Hp) in Hbest. specialize (Hbest Hl).
  unfold linear_sum_assignment. cbn [fst snd]. rewrite combine_fst_snd.
  apply Qle_bool_iff in Hbest.
  eapply Qle_trans; [exact Hbest |].
  unfold total_cost, fsum.
  rewrite (Qsum_perm (Permutation_map (entry c) Hp) fzero).
  apply Qle_refl.
Qed.

End AnyOrder.

(** C1.  When the comparisons of the scalars form a total preorder: on a
    batch of the documented shapes with as many targets as batch
    elements, [forward] returns one assignment per batch element, the
    solver's result on block [b] for element [b]; with [Q] queries and
    [T] target entries it has [min Q T] pairs, no query index and no
    target index twice, all in range, and its total cost on block [b] is
    at most that of every one-to-one matching of [min Q T] pairs listed
    by increasing query.  On the rationals the total cost is at most
    that of every such matching in whatever order its pairs are listed.
    For the cost matrix [[1,5],[5,1]] the assignment is [(0,0), (1,1)],
    of total cost 2, the other full matching costing 10. *)
Theorem forward_optimal_assignment :
  (forall (F : Type) (SF : Scalar F) (SO : ScalarOrder F)
          (self : HungarianMatcher F) (outputs : Outputs F)
          (targets : list (Target F)) (bs nq nc : nat),
      outputs_shape bs nq nc outputs ->
      boxes_ok outputs ->
      Forall (target_ok nc) targets ->
      1 <= bs -> 1 <= nq ->
      length targets = bs ->
      exists blocks res,
        cost_blocks self outputs targets = Ok blocks
        /\ forward self outputs targets = Ok res
        /\ length res = bs
        /\ forall b tg,
            nth_error targets b = Some tg ->
            exists blk a,
              nth_error blocks b = Some blk
              /\ nth_error res b = Some a
              /\ a = linear_sum_assignment blk
              /\ length blk = nq
              /\ length (hd [] blk) = length (boxes tg)
              /\ optimal_assignment blk nq (length (boxes tg)) a)
  /\ (forall (c : list (list Q)) (m' : list (nat * nat)),
         is_matching_set (length c) (length (hd [] c)) m' ->
         length m' = Nat.min (length c) (length (hd [] c)) ->
         (total_cost c (combine (fst (linear_sum_assignment c))
                                (snd (linear_sum_assignment c)))
          <= total_cost c m')%Q)
  /\ linear_sum_assignment [[1; 5]; [5; 1]]%Q = ([0; 1], [0; 1])
  /\ total_cost [[1; 5]; [5; 1]]%Q [(0, 0); (1, 1)] = 2%Q
  /\ total_cost [[1; 5]; [5; 1]]%Q [(0, 1); (1, 0)] = 10%Q.
Proof.
  split; [| split; [exact linear_sum_assignment_least
                   | repeat split; reflexivity]].
  intros F SF SO self outputs targets bs nq nc Hshape Hok Hts Hbs1 Hnq1 Hlen.
  destruct (blocks_of_batch self Hshape Hok Hts Hbs1 Hnq1 Hlen)
    as (blocks & Hblocks & Hf & Hl & Hb).
  exists blocks, (map linear_sum_assignment blocks).
  split; [exact Hblocks | split; [exact Hf | split; [rewrite length_map; exact Hl |]]].
  intros b tg Ht.
  destruct (Hb b tg Ht) as (e & _ & He & Hlab & Hblk).
  exists (block_of self e tg), (linear_sum_assignment (block_of self e tg)).
  split; [exact Hblk |].
  split; [rewrite nth_error_map, Hblk; reflexivity |].
  split; [reflexivity |].
  destruct (@block_shape _ _ self e tg) as [H1 H2]; [lia | exact Hlab |].
  split; [rewrite H1; exact He | split; [exact H2 |]].
  pose proof (linear_sum_assignment_optimal (block_of self e tg)) as Hopt.
  rewrite H1, H2, He in Hopt. exact Hopt.
Qed.

(** ** The example batches *)

Lemma ex_outputs_ok : outputs_shape 2 2 3 ex_outputs /\ boxes_ok ex_outputs.
Proof.
  split; [unfold outputs_shape; cbn; repeat split; repeat constructor |].
  unfold boxes_ok; cbn; repeat constructor.
Qed.

Lemma ex_outputs5_ok : outputs_shape 1 5 2 ex_outputs5 /\ boxes_ok ex_outputs5.
Proof.
  split; [unfold outputs_shape; cbn; repeat split; repeat constructor |].
  unfold boxes_ok; cbn; repeat constructor.
Qed.

Lemma ex_targets_ok :
  Forall (target_ok 3) ex_targets
  /\ Forall (target_ok 3) ex_one_target
  /\ Forall (target_ok 3) ex_three_targets
  /\ Forall (target_ok 2) ex_no_target.
Proof.
  unfold target_ok; cbn; repeat split; repeat constructor; cbn; lia.
Qed.

Lemma forward_optimal_assignment_witness :
  exists blocks res,
    cost_blocks ex_matcher ex_outputs ex_targets = Ok blocks
    /\ forward ex_matcher ex_outputs ex_targets = Ok res
    /\ length res = 2.
Proof.
  destruct (proj1 forward_optimal_assignment Q Q_scalar Q_order
                  ex_matcher ex_outputs ex_targets 2 2 3
                  (proj1 ex_outputs_ok) (proj2 ex_outputs_ok)
                  (proj1 ex_targets_ok) ltac:(lia) ltac:(lia) eq_refl)
    as (blocks & res & H1 & H2 & H3 & _).
  exists blocks, res. auto.
Defined.

Lemma cost_blocks_entries_witness :
  exists blocks,
    cost_blocks ex_matcher ex_outputs ex_targets = Ok blocks
    /\ length blocks = 2.
Proof.
  destruct (@cost_blocks_entries Q Q_scalar
              ex_matcher ex_outputs ex_targets 2 2 3
              (proj1 ex_outputs_ok) (proj2 ex_outputs_ok)
              (proj1 ex_targets_ok) ltac:(lia) ltac:(lia) eq_refl)
    as (blocks & H1 & _ & H3 & _).
  exists blocks. auto.
Defined.

Lemma forward_empty_target_witness :
  exists res,
    forward ex_matcher ex_outputs5 ex_no_target = Ok res
    /\ length res = 1
    /\ nth_error res 0 = Some ([], []).
Proof.
  apply (@forward_empty_target Q Q_scalar
           ex_matcher ex_outputs5 ex_no_target 1 5 2 0 (mkTarget [] [])
           (proj1 ex_outputs5_ok) (proj2 ex_outputs5_ok)
           (proj2 (proj2 (proj2 ex_targets_ok)))
           ltac:(lia) ltac:(lia)
           eq_refl eq_refl eq_refl).
Defined.

(** C5, refuted as stated: two batch elements of predictions and a
    single target; the call returns an assignment and raises nothing. *)
Lemma forward_unequal_lengths_returns :
  length (pred_logits ex_uniform) = 2
  /\ length (pred_boxes ex_uniform) = 2
  /\ length ex_one_target = 1
  /\ cost_blocks ex_matcher ex_uniform ex_one_target
     = Ok [[[(-4 # 3)%Q]; [(17 # 12)%Q]]]
  /\ match_ 1%Q 1%Q 1%Q ex_uniform ex_one_target = Ok [([0], [0])].
Proof. repeat split; vm_compute; reflexivity. Qed.

Lemma forward_batch_lengths_witness :
  (exists r, forward ex_matcher ex_outputs ex_one_target = Ok r
             /\ length r = 1)
  /\ forward ex_matcher ex_outputs ex_three_targets = Raise IndexError.
Proof.
  destruct (@forward_batch_lengths Q Q_scalar
              ex_matcher ex_outputs ex_one_target 2 2 3
              (proj1 ex_outputs_ok) (proj2 ex_outputs_ok)
              (proj1 (proj2 ex_targets_ok)) ltac:(lia) ltac:(lia))
    as (H1 & _ & _).
  destruct (@forward_batch_lengths Q Q_scalar
              ex_matcher ex_outputs ex_three_targets 2 2 3
              (proj1 ex_outputs_ok) (proj2 ex_outputs_ok)
              (proj1 (proj2 (proj2 ex_targets_ok))) ltac:(lia) ltac:(lia))
    as (_ & H2 & _).
  split.
  - apply H1. cbn. lia.
  - apply H2. cbn. lia.
Defined.

(** ** Greedy suppression *)

Section GreedyFacts.

Context {A : Type}.

Lemma greedy_incl (sup : A -> A -> bool) (l : list A) :
  incl (greedy sup l) l.
Proof.
  funelim (greedy sup l); [intros x [] |].
  intros x [<- | Hx]; [left; reflexivity | right].
  apply H in Hx. apply filter_In in Hx. apply Hx.
Qed.

Lemma StronglySorted_filter (R : A -> A -> Prop) (p : A -> bool) (l : list A) :
  StronglySorted R l -> StronglySorted R (filter p l).
Proof.
  induction 1 as [| a l _ IH Ha]; cbn; [constructor |].
  destruct (p a); [| exact IH].
  constructor; [exact IH |].
  rewrite Forall_forall in *. intros x Hx. apply filter_In in Hx. apply Ha, Hx.
Qed.

(** The kept elements come in the order of the input. *)
Lemma greedy_sorted (R : A -> A -> Prop) (sup : A -> A -> bool) (l : list A) :
  StronglySorted R l -> StronglySorted R (greedy sup l).
Proof.
  funelim (greedy sup l); intros Hs; [constructor |].
  inversion Hs as [| ? ? Hs' Ha]; subst.
  constructor; [apply H, StronglySorted_filter, Hs' |].
  rewrite Forall_forall in *. intros x Hx.
  apply greedy_incl, filter_In in Hx. apply Ha, Hx.
Qed.

Lemma greedy_NoDup (sup : A -> A -> bool) (l : list A) :
  NoDup l -> NoDup (greedy sup l).
Proof.
  funelim (greedy sup l); intros Hn; [constructor |].
  inversion Hn as [| ? ? Hi Hn']; subst.
  constructor; [| apply H, NoDup_filter, Hn'].
  intros Hx. apply greedy_incl, filter_In in Hx. apply Hi, Hx.
Qed.

(** No kept element suppresses a later kept element. *)
Lemma greedy_independent (sup : A -> A -> bool) (l : list A) :
  StronglySorted (fun a b => sup a b = false) (greedy sup l).
Proof.
  funelim (greedy sup l); [constructor |].
  constructor; [exact H |].
  apply Forall_forall. intros x Hx.
  apply greedy_incl, filter_In in Hx. destruct Hx as [_ Hx].
  apply negb_true_iff, Hx.
Qed.

(** A list without suppression is kept whole. *)
Lemma greedy_fixed (sup : A -> A -> bool) (l : list A) :
  StronglySorted (fun a b => sup a b = false) l -> greedy sup l = l.
Proof.
  induction 1 as [| a l _ IH Ha]; simp greedy; [reflexivity |].
  assert (E : filter (fun j => negb (sup a j)) l = l).
  { clear IH. induction l as [| b l IHl]; cbn; [reflexivity |].
    inversion Ha as [| ? ? Hb Ha']; subst. rewrite Hb. cbn.
    f_equal. apply IHl, Ha'. }
  rewrite E, IH. reflexivity.
Qed.

(** What is kept of a prefix starts what is kept of the whole. *)
Lemma greedy_prefix (sup : A -> A -> bool) (l1 l2 : list A) :
  exists t, greedy sup (l1 ++ l2) = greedy sup l1 ++ t.
Proof.
  revert l2. funelim (greedy sup l1); intros l2.
  - exists (greedy sup l2). reflexivity.
  - cbn [app]. simp greedy. rewrite filter_app.
    destruct (H (filter (fun j => negb (sup i j)) l2)) as [t Ht].
    exists t. rewrite Ht. reflexivity.
Qed.

Lemma greedy_ext (sup sup' : A -> A -> bool) (l : list A) :
  (forall a b, sup a b = sup' a b) -> greedy sup l = greedy sup' l.
Proof.
  intros E. funelim (greedy sup l); simp greedy; [reflexivity |].
  rewrite (filter_ext _ (fun j => negb (sup' i j)))
    by (intros; rewrite E; reflexivity).
  f_equal.
  rewrite (filter_ext _ (fun j => negb (sup' i j))) in H
    by (intros; rewrite E; reflexivity).
  apply H, E.
Qed.

Lemma greedy_map (B : Type) (f : B -> A) (sup : A -> A -> bool) (l : list B) :
  greedy sup (map f l) = map f (greedy (fun a b => sup (f a) (f b)) l).
Proof.
  funelim (greedy (fun a b => sup (f a) (f b)) l); cbn [map]; simp greedy;
    [reflexivity |].
  cbn [map]. f_equal. rewrite filter_map_swap. apply H.
Qed.

End GreedyFacts.

(** ** Sorting by descending score *)

Section SortFacts.

Context {F : Type} {SF : Scalar F} {A : Type}.

Lemma insert_desc_perm (key : A -> F) (x : A) (l : list A) :
  Permutation (insert_desc key x l) (x :: l).
Proof.
  induction l as [| y l IH]; cbn; [reflexivity |].
  destruct (fleb (key y) (key x)); [reflexivity |].
  rewrite IH. apply perm_swap.
Qed.

Lemma sort_desc_perm (key : A -> F) (l : list A) :
  Permutation (sort_desc key l) l.
Proof.
  induction l as [| x l IH]; cbn; [reflexivity |].
  rewrite insert_desc_perm, IH. reflexivity.
Qed.

Lemma insert_desc_head (key : A -> F) (x : A) (l : list A) :
  Forall (fun b => fleb (key b) (key x) = true) l ->
  insert_desc key x l = x :: l.
Proof.
  destruct 1 as [| y l Hy _]; cbn; [reflexivity |].
  rewrite Hy. reflexivity.
Qed.

(** A descending list is left as it is. *)
Lemma sort_desc_fixed (key : A -> F) (l : list A) :
  descending key l -> sort_desc key l = l.
Proof.
  induction 1 as [| a l _ IH Ha]; cbn; [reflexivity |].
  rewrite IH. apply insert_desc_head, Ha.
Qed.

Lemma sort_desc_ext (key key' : A -> F) (l : list A) :
  (forall a, key a = key' a) -> sort_desc key l = sort_desc key' l.
Proof.
  intros E. induction l as [| x l IH]; cbn; [reflexivity |].
  rewrite IH. generalize (sort_desc key' l). intros s.
  induction s as [| y s IHs]; cbn; [reflexivity |].
  rewrite !E, IHs. reflexivity.
Qed.

Lemma sort_desc_map (B : Type) (f : B -> A) (key : A -> F) (l : list B) :
  sort_desc key (map f l) = map f (sort_desc (fun b => key (f b)) l).
Proof.
  induction l as [| x l IH]; cbn; [reflexivity |].
  rewrite IH. generalize (sort_desc (fun b => key (f b)) l). intros s.
  induction s as [| y s IHs]; cbn; [reflexivity |].
  destruct (fleb (key (f y)) (key (f x))); cbn; [reflexivity |].
  rewrite IHs. reflexivity.
Qed.

Context {SO : ScalarOrder F}.

Lemma insert_desc_sorted (key : A -> F) (x : A) (l : list A) :
  descending key l -> descending key (insert_desc key x l).
Proof.
  unfold descending.
  induction 1 as [| y l Hs IH Hy]; cbn; [repeat constructor |].
  destruct (fleb (key y) (key x)) eqn:E.
  - constructor; [constructor; assumption |].
    constructor; [exact E |].
    rewrite Forall_forall in *. intros z Hz.
    eapply fleb_trans; [apply Hy, Hz | exact E].
  - constructor; [exact IH |].
    rewrite Forall_forall in *. intros z Hz.
    apply (Permutation_in _ (insert_desc_perm key x l)) in Hz.
    destruct Hz as [<- | Hz]; [| apply Hy, Hz].
    destruct (fleb_total (key x) (key y)) as [H | H]; [exact H | congruence].
Qed.

Lemma sort_desc_sorted (key : A -> F) (l : list A) :
  descending key (sort_desc key l).
Proof.
  induction l as [| x l IH]; cbn; [constructor |].
  apply insert_desc_sorted, IH.
Qed.

(** Sorting what a test lets through is letting through what is sorted. *)
Lemma filter_insert_desc (key : A -> F) (p : A -> bool) (x : A) (l : list A) :
  descending key l ->
  filter p (insert_desc key x l)
  = if p x then insert_desc key x (filter p l) else filter p l.
Proof.
  unfold descending.
  induction 1 as [| y l Hs IH Hy]; cbn; [destruct (p x); reflexivity |].
  destruct (fleb (key y) (key x)) eqn:E; cbn.
  - destruct (p x); [| reflexivity].
    symmetry. apply insert_desc_head.
    destruct (p y).
    + constructor; [exact E |].
      rewrite Forall_forall in *. intros z Hz. apply filter_In in Hz.
      eapply fleb_trans; [apply Hy, Hz | exact E].
    + rewrite Forall_forall in *. intros z Hz. apply filter_In in Hz.
      eapply fleb_trans; [apply Hy, Hz | exact E].
  - rewrite IH. destruct (p y), (p x); cbn; try reflexivity.
    rewrite E. reflexivity.
Qed.

Lemma filter_sort_desc (key : A -> F) (p : A -> bool) (l : list A) :
  sort_desc key (filter p l) = filter p (sort_desc key l).
Proof.
  induction l as [| x l IH]; cbn; [reflexivity |].
  rewrite filter_insert_desc by apply sort_desc_sorted.
  destruct (p x); cbn; rewrite IH; reflexivity.
Qed.

(** In a descending list, the elements above a bound come first. *)
Lemma descending_above_prefix (key : A -> F) (t : F) (l : list A) :
  descending key l ->
  exists rest, l = filter (fun a => fgtb (key a) t) l ++ rest.
Proof.
  unfold descending.
  induction 1 as [| y l Hs IH Hy]; cbn; [exists []; reflexivity |].
  destruct (fgtb (key y) t) eqn:E.
  - destruct IH as [rest IH]. exists rest. cbn. f_equal. exact IH.
  - exists (y :: l).
    assert (Hn : filter (fun a => fgtb (key a) t) l = []).
    { clear IH Hs. induction l as [| z l IHl]; cbn; [reflexivity |].
      inversion Hy as [| ? ? Hz Hy']; subst.
      assert (Ez : fgtb (key z) t = false).
      { unfold fgtb in *. rewrite fltb_fleb in *.
        apply negb_false_iff in E. apply negb_false_iff.
        eapply fleb_trans; eassumption. }
      rewrite Ez. apply IHl, Hy'. }
    rewrite Hn. reflexivity.
Qed.

(** Raising the bound lets through fewer elements. *)
Lemma filter_above_above (key : A -> F) (t1 t2 : F) (l : list A) :
  fleb t1 t2 = true ->
  filter (fun a => fgtb (key a) t2) l
  = filter (fun a => fgtb (key a) t2) (filter (fun a => fgtb (key a) t1) l).
Proof.
  intros H12. induction l as [| x l IH]; cbn; [reflexivity |].
  destruct (fgtb (key x) t2) eqn:E2.
  - assert (E1 : fgtb (key x) t1 = true).
    { unfold fgtb in *. rewrite fltb_fleb in *.
      apply negb_true_iff in E2. apply negb_true_iff.
      destruct (fleb (key x) t1) eqn:E; [| reflexivity].
      rewrite (fleb_trans _ _ _ E H12) in E2. discriminate. }
    rewrite E1. cbn. rewrite E2, IH. reflexivity.
  - destruct (fgtb (key x) t1); cbn; [rewrite E2 |]; exact IH.
Qed.

End SortFacts.

(** ** The stages of [PostProcess] *)

Section FilterFacts.

Context {F : Type} {SF : Scalar F}.

Lemma mask_select_map (D X : Type) (g : D -> X) (p : D -> bool) (l : list D) :
  mask_select (map g l) (map p l) = Ok (map g (filter p l)).
Proof.
  induction l as [| a l IH]; cbn; [reflexivity |].
  rewrite IH. cbn. destruct (p a); reflexivity.
Qed.

Lemma query_scores_nonempty (row : list F) :
  2 <= length row -> query_scores row <> [].
Proof.
  intros H E. apply (f_equal (@length _)) in E.
  unfold query_scores in E.
  rewrite removelast_firstn_len, length_firstn, softmax_length in E.
  cbn in E. lia.
Qed.

Lemma torch_max_top (row : list F) :
  query_scores row <> [] ->
  torch_max (removelast (softmax row)) = Ok (query_top row).
Proof.
  unfold query_top, query_scores. intros H.
  destruct (removelast (softmax row)); [congruence | reflexivity].
Qed.

Lemma detections_unzip (bxs : list (Box F)) (logits : list (list F)) :
  length bxs = length logits ->
  map det_box (detections bxs logits) = bxs
  /\ map det_class (detections bxs logits) = map snd (map query_top logits)
  /\ map det_score (detections bxs logits) = map fst (map query_top logits).
Proof.
  intros H. unfold detections. rewrite !map_map. cbn.
  split; [apply map_fst_combine_eq, H |].
  split.
  - rewrite <- (map_snd_combine_eq bxs logits H) at 2. rewrite map_map. reflexivity.
  - rewrite <- (map_snd_combine_eq bxs logits H) at 2. rewrite map_map. reflexivity.
Qed.

Lemma threshold_stage_closed (self : PostProcess F) (bxs : list (Box F))
      (logits : list (list F)) :
  length bxs = length logits ->
  Forall (fun row => 2 <= length row) logits ->
  threshold_stage self bxs logits
  = Ok (unzip3 (filter (passes (confidence_threshold self))
                       (detections bxs logits))).
Proof.
  intros Hl Hrows. unfold threshold_stage.
  rewrite (@mapM_total _ _ _ query_top).
  2:{ intros row Hr. apply torch_max_top, query_scores_nonempty.
      rewrite Forall_forall in Hrows. apply Hrows, Hr. }
  cbn [bind].
  destruct (detections_unzip bxs logits Hl) as (Eb & Ec & Es).
  rewrite <- Es, <- Ec.
  remember (detections bxs logits) as D eqn:ED. clear ED.
  subst bxs. rewrite map_map.
  change (map (fun x => fgtb (det_score x) (confidence_threshold self)) D)
    with (map (passes (confidence_threshold self)) D).
  rewrite !mask_select_map. reflexivity.
Qed.

Lemma gather_nth (X : Type) (l : list X) (idx : list nat) (d : X) :
  Forall (fun i => i < length l) idx ->
  gather l idx = Ok (map (fun i => nth i l d) idx).
Proof.
  intros H. unfold gather. apply mapM_total. intros i Hi.
  rewrite Forall_forall in H. specialize (H i Hi).
  unfold index_nat. destruct (nth_error l i) as [a |] eqn:E.
  - rewrite (nth_error_nth _ _ _ E). reflexivity.
  - apply nth_error_None in E. lia.
Qed.

Lemma map_nth_seq (X : Type) (l : list X) (d : X) :
  map (fun i => nth i l d) (seq 0 (length l)) = l.
Proof.
  induction l as [| a l IH]; cbn; [reflexivity |].
  f_equal. rewrite <- seq_shift, map_map. exact IH.
Qed.

Lemma nms_closed (thr : F) (K : list (detection (F := F))) :
  nms (map det_box K) (map det_score K) thr = Ok (nms_order thr K).
Proof.
  unfold nms, nms_order. rewrite !length_map, Nat.eqb_refl. f_equal.
  rewrite (sort_desc_ext _ (fun i => det_score (nth i K det0)))
    by (intros i; apply (map_nth det_score K det0)).
  apply greedy_ext. intros i j. unfold overlaps.
  rewrite <- !(map_nth det_box K det0). reflexivity.
Qed.

Lemma nms_order_range (thr : F) (K : list (detection (F := F))) :
  NoDup (nms_order thr K)
  /\ Forall (fun i => i < length K) (nms_order thr K).
Proof.
  unfold nms_order. split.
  - apply greedy_NoDup.
    apply (Permutation_NoDup (Permutation_sym (sort_desc_perm _ _))), seq_NoDup.
  - apply Forall_forall. intros i Hi. apply greedy_incl in Hi.
    apply (Permutation_in _ (sort_desc_perm _ _)) in Hi.
    apply in_seq in Hi. lia.
Qed.

(** The detections at the indices [nms] returns are the detections the
    greedy suppression keeps of the sorted detections. *)
Lemma nms_order_detections (thr : F) (K : list (detection (F := F))) :
  map (fun i => nth i K det0) (nms_order thr K)
  = greedy (overlaps thr) (sort_desc det_score K).
Proof.
  unfold nms_order.
  rewrite <- (greedy_map (fun i => nth i K det0) (overlaps thr)).
  rewrite <- (sort_desc_map (fun i => nth i K det0) det_score).
  rewrite map_nth_seq. reflexivity.
Qed.

Lemma suppress_indices (self : PostProcess F) (K : list (detection (F := F))) :
  suppress self (unzip3 K)
  = Ok (unzip3 (map (fun i => nth i K det0)
                    (nms_order (iou_threshold self) K))).
Proof.
  unfold suppress, unzip3. rewrite nms_closed. cbn [bind].
  destruct (nms_order_range (iou_threshold self) K) as [_ Hr].
  rewrite (gather_nth (map det_class K) (det_class det0))
    by (rewrite length_map; exact Hr).
  rewrite (gather_nth (map det_box K) (det_box det0))
    by (rewrite length_map; exact Hr).
  rewrite (gather_nth (map det_score K) (det_score det0))
    by (rewrite length_map; exact Hr).
  cbn [bind]. rewrite !map_map.
  rewrite (map_ext _ _ (fun i => map_nth det_box K det0 i)).
  rewrite (map_ext _ _ (fun i => map_nth det_class K det0 i)).
  rewrite (map_ext _ _ (fun i => map_nth det_score K det0 i)).
  reflexivity.
Qed.

Lemma suppress_closed (self : PostProcess F) (K : list (detection (F := F))) :
  suppress self (unzip3 K)
  = Ok (unzip3 (greedy (overlaps (iou_threshold self)) (sort_desc det_score K))).
Proof. rewrite suppress_indices, nms_order_detections. reflexivity. Qed.

Lemma PostProcess_call_closed (self : PostProcess F) (bxs : list (Box F))
      (logits : list (list F)) :
  length bxs = length logits ->
  Forall (fun row => 2 <= length row) logits ->
  PostProcess_call self bxs logits = Ok (unzip3 (survivors self bxs logits)).
Proof.
  intros Hl Hrows. unfold PostProcess_call.
  rewrite (threshold_stage_closed self bxs Hl Hrows). cbn [bind].
  apply suppress_closed.
Qed.

(** Three sequences of one length are the sequences of a list of
    detections. *)
Lemma zip3_unzip3 (bxs : list (Box F)) (cls : list nat) (scs : list F) :
  length cls = length bxs -> length scs = length bxs ->
  unzip3 (combine (combine bxs cls) scs) = (bxs, cls, scs).
Proof.
  revert cls scs. unfold unzip3.
  induction bxs as [| b bxs IH]; intros [| c cls] [| s scs] H1 H2;
    cbn in *; try discriminate; [reflexivity |].
  specialize (IH cls scs ltac:(lia) ltac:(lia)).
  unfold det_box, det_class, det_score in *. cbn.
  congruence.
Qed.

End FilterFacts.

Section QueryFacts.

Context {F : Type} {SF : Scalar F}.

Lemma filter_as_indices (X : Type) (p : X -> bool) (l : list X) (d : X) :
  filter p l
  = map (fun i => nth i l d)
        (filter (fun i => p (nth i l d)) (seq 0 (length l))).
Proof.
  induction l as [| a l IH]; [reflexivity |].
  cbn [length]. rewrite <- cons_seq, <- seq_shift.
  cbn [filter nth]. rewrite filter_map_swap. cbn [nth].
  destruct (p a); cbn [map nth]; rewrite map_map; cbn [nth];
    rewrite <- IH; reflexivity.
Qed.

Lemma detections_length (bxs : list (Box F)) (logits : list (list F)) :
  length bxs = length logits -> length (detections bxs logits) = length logits.
Proof.
  intros H. unfold detections. rewrite length_map, length_combine. lia.
Qed.

Lemma detections_nth (bxs : list (Box F)) (logits : list (list F)) (q : nat) :
  length bxs = length logits ->
  nth q (detections bxs logits) det0 = query_detection bxs logits q.
Proof.
  intros H. unfold detections, query_detection.
  change (det0 (F := F))
    with ((fun bl : Box F * list F =>
             (fst bl, snd (query_top (snd bl)), fst (query_top (snd bl))))
            (box0, [])).
  rewrite map_nth, combine_nth by exact H. reflexivity.
Qed.

(** The detections that pass the threshold are those of the kept
    queries, in the order of the queries. *)
Lemma passing_detections (t : F) (bxs : list (Box F)) (logits : list (list F)) :
  length bxs = length logits ->
  filter (passes t) (detections bxs logits)
  = map (query_detection bxs logits) (kept_queries t logits).
Proof.
  intros H. rewrite (filter_as_indices _ _ det0), (detections_length _ _ H).
  unfold kept_queries.
  rewrite (filter_ext _ (fun q => fgtb (fst (query_top (nth q logits []))) t))
    by (intros q; rewrite (detections_nth _ _ q H); reflexivity).
  apply map_ext. intros q. apply detections_nth, H.
Qed.

Lemma kept_queries_range (t : F) (logits : list (list F)) :
  NoDup (kept_queries t logits)
  /\ forall q, In q (kept_queries t logits) <->
               q < length logits
               /\ fgtb (fst (query_top (nth q logits []))) t = true.
Proof.
  unfold kept_queries. split; [apply NoDup_filter, seq_NoDup |].
  intros q. rewrite filter_In, in_seq. intuition lia.
Qed.

Lemma NoDup_map_nth (l idx : list nat) :
  NoDup l -> NoDup idx -> Forall (fun i => i < length l) idx ->
  NoDup (map (fun i => nth i l 0) idx).
Proof.
  intros Hl Hi Hr. induction Hi as [| a idx Ha Hi IH]; cbn; [constructor |].
  inversion Hr as [| ? ? Hra Hr']; subst.
  constructor; [| apply IH, Hr'].
  intros Hin. apply in_map_iff in Hin. destruct Hin as (j & Ej & Hj).
  rewrite Forall_forall in Hr'.
  apply (proj1 (NoDup_nth l 0) Hl) in Ej; [| apply Hr', Hj | exact Hra].
  subst j. apply Ha, Hj.
Qed.

(** The survivors are the detections of queries [qs], each taken once. *)
Lemma survivors_queries (self : PostProcess F) (bxs : list (Box F))
      (logits : list (list F)) :
  length bxs = length logits ->
  exists qs,
    survivors self bxs logits = map (query_detection bxs logits) qs
    /\ NoDup qs
    /\ Forall (fun q => q < length logits) qs.
Proof.
  intros H. unfold survivors.
  rewrite (passing_detections _ _ _ H).
  set (kept := kept_queries (confidence_threshold self) logits).
  set (K := map (query_detection bxs logits) kept).
  rewrite <- nms_order_detections.
  destruct (nms_order_range (iou_threshold self) K) as [Hn Hr].
  assert (HlK : length K = length kept) by (unfold K; apply length_map).
  rewrite HlK in Hr.
  destruct (kept_queries_range (confidence_threshold self) logits) as [Hk Hin].
  fold kept in Hk, Hin.
  exists (map (fun i => nth i kept 0) (nms_order (iou_threshold self) K)).
  split; [| split].
  - rewrite map_map. apply map_ext_in. intros i Hi.
    rewrite Forall_forall in Hr. specialize (Hr i Hi).
    unfold K. rewrite (nth_indep _ det0 (query_detection bxs logits 0))
      by (rewrite length_map; exact Hr).
    apply map_nth.
  - apply NoDup_map_nth; assumption.
  - apply Forall_map, Forall_forall. intros i Hi.
    rewrite Forall_forall in Hr. specialize (Hr i Hi).
    apply (Hin (nth i kept 0)), nth_In, Hr.
Qed.

End QueryFacts.

(** ** The score of a query *)

Section MaxFacts.

Context {F : Type} {SF : Scalar F} {SO : ScalarOrder F}.

Lemma max_from_first_max (l pre : list F) (best : F) (bi : nat) :
  nth_error pre bi = Some best ->
  (forall y, In y pre -> fleb y best = true) ->
  (forall j y, j < bi -> nth_error pre j = Some y -> fltb y best = true) ->
  is_first_max (pre ++ l)
               (fst (max_from best bi (length pre) l))
               (snd (max_from best bi (length pre) l)).
Proof.
  revert pre best bi. induction l as [| x l IH]; intros pre best bi Hb Hle Hlt.
  - cbn. rewrite app_nil_r. repeat split; assumption.
  - cbn [max_from].
    assert (Hbi : bi < length pre) by (apply nth_error_Some; congruence).
    assert (Ea : pre ++ x :: l = (pre ++ [x]) ++ l)
      by (rewrite <- app_assoc; reflexivity).
    assert (El : S (length pre) = length (pre ++ [x]))
      by (rewrite length_app; cbn; lia).
    rewrite Ea, El.
    destruct (fltb best x) eqn:E; apply IH.
    + rewrite nth_error_app2, Nat.sub_diag by lia. reflexivity.
    + intros y Hy. apply in_app_or in Hy. destruct Hy as [Hy | [<- | []]].
      * eapply fleb_trans; [apply Hle, Hy | apply fltb_true_fleb, E].
      * apply fleb_refl.
    + intros j y Hj Hy.
      rewrite nth_error_app1 in Hy by lia.
      apply nth_error_In, Hle in Hy.
      rewrite fltb_fleb in *. apply negb_true_iff in E. apply negb_true_iff.
      destruct (fleb x y) eqn:Exy; [| reflexivity].
      rewrite (fleb_trans _ _ _ Exy Hy) in E. discriminate.
    + rewrite nth_error_app1 by lia. exact Hb.
    + intros y Hy. apply in_app_or in Hy. destruct Hy as [Hy | [<- | []]].
      * apply Hle, Hy.
      * apply fltb_false_fleb, E.
    + intros j y Hj Hy. rewrite nth_error_app1 in Hy by lia.
      eapply Hlt; eassumption.
Qed.

Lemma query_top_first_max (row : list F) :
  2 <= length row ->
  is_first_max (query_scores row) (fst (query_top row)) (snd (query_top row)).
Proof.
  intros H. pose proof (query_scores_nonempty row H) as Hne.
  unfold query_top. destruct (query_scores row) as [| x l]; [congruence |].
  apply (max_from_first_max l [x] (best := x) (bi := 0)).
  - reflexivity.
  - intros y [<- | []]. apply fleb_refl.
  - intros j y Hj. lia.
Qed.

End MaxFacts.

(** ** The claims on [PostProcess] *)

Section FilterClaims.

Context {F : Type} {SF : Scalar F}.

(** C10.  On boxes and class logits for the same [Q] queries (at least
    two logits per query), [PostProcess.__call__] returns three
    sequences of one length [n <= Q]; there are [n] query indices below
    [Q], all different, such that position [k] of the three sequences
    holds the box, the class and the score of the [k]-th of them. *)
Theorem PostProcess_call_lockstep (self : PostProcess F) (bxs : list (Box F))
        (logits : list (list F)) :
  length bxs = length logits ->
  Forall (fun row => 2 <= length row) logits ->
  exists (qs : list nat) (b : list (Box F)) (c : list nat) (s : list F),
    PostProcess_call self bxs logits = Ok (b, c, s)
    /\ length b = length qs /\ length c = length qs /\ length s = length qs
    /\ length qs <= length logits
    /\ NoDup qs
    /\ Forall (fun q => q < length logits) qs
    /\ b = map (fun q => nth q bxs box0) qs
    /\ c = map (fun q => snd (query_top (nth q logits []))) qs
    /\ s = map (fun q => fst (query_top (nth q logits []))) qs.
Proof.
  intros Hl Hrows.
  destruct (survivors_queries self bxs logits Hl) as (qs & Hs & Hn & Hr).
  exists qs, (map (fun q => nth q bxs box0) qs),
    (map (fun q => snd (query_top (nth q logits []))) qs),
    (map (fun q => fst (query_top (nth q logits []))) qs).
  split.
  - rewrite (PostProcess_call_closed self bxs Hl Hrows), Hs.
    unfold unzip3. rewrite !map_map. reflexivity.
  - rewrite !length_map.
    assert (Hle : length qs <= length (seq 0 (length logits))).
    { apply NoDup_incl_length; [exact Hn |].
      intros q Hq. rewrite Forall_forall in Hr. apply in_seq.
      specialize (Hr q Hq). lia. }
    rewrite length_seq in Hle.
    repeat split; auto.
Qed.

Context {SO : ScalarOrder F}.

(** C3.  With comparisons that form a total preorder: the score of a
    query is a greatest entry of the softmax of its logits without the
    last (background) entry, and its class is the first index holding
    that value; the thresholding stage keeps, in order, exactly the
    queries whose score is strictly greater than the confidence
    threshold, each with its box, its class and its score; a query whose
    score is at most the threshold is discarded. *)
Theorem threshold_stage_keeps (self : PostProcess F) (bxs : list (Box F))
        (logits : list (list F)) :
  length bxs = length logits ->
  Forall (fun row => 2 <= length row) logits ->
  let score := fun q => fst (query_top (nth q logits [])) in
  let class := fun q => snd (query_top (nth q logits [])) in
  let kept := kept_queries (confidence_threshold self) logits in
  (forall q, q < length logits ->
             is_first_max (removelast (softmax (nth q logits [])))
                          (score q) (class q))
  /\ threshold_stage self bxs logits
     = Ok (map (fun q => nth q bxs box0) kept, map class kept, map score kept)
  /\ (forall q, In q kept <->
                q < length logits
                /\ fgtb (score q) (confidence_threshold self) = true)
  /\ (forall q, fleb (score q) (confidence_threshold self) = true ->
                ~ In q kept)
  /\ StronglySorted lt kept.
Proof.
  intros Hl Hrows score class kept.
  destruct (kept_queries_range (confidence_threshold self) logits) as [Hn Hin].
  fold kept in Hn, Hin.
  split; [| split; [| split; [| split]]].
  - intros q Hq. apply query_top_first_max.
    rewrite Forall_forall in Hrows. apply Hrows, nth_In, Hq.
  - rewrite (threshold_stage_closed self bxs Hl Hrows),
      (passing_detections _ _ _ Hl).
    fold kept. unfold unzip3. rewrite !map_map. reflexivity.
  - exact Hin.
  - intros q Hle Hq. apply Hin in Hq. destruct Hq as [_ Hq].
    unfold fgtb in Hq. rewrite fltb_fleb in Hq. fold (score q) in Hq.
    rewrite Hle in Hq. discriminate.
  - unfold kept, kept_queries. apply StronglySorted_filter, StronglySorted_seq.
Qed.

(** C9.  With comparisons that form a total preorder: the suppression
    step, run on boxes, classes and scores of one length, succeeds, and
    run again on its own output it returns that output unchanged. *)
Theorem suppress_idempotent (self : PostProcess F) (bxs : list (Box F))
        (cls : list nat) (scs : list F) :
  length cls = length bxs ->
  length scs = length bxs ->
  exists d',
    suppress self (bxs, cls, scs) = Ok d'
    /\ suppress self d' = Ok d'.
Proof.
  intros H1 H2. rewrite <- (zip3_unzip3 bxs cls scs H1 H2).
  set (K := combine (combine bxs cls) scs).
  eexists. split; [apply suppress_closed |].
  rewrite suppress_closed. do 2 f_equal.
  rewrite sort_desc_fixed
    by (apply greedy_sorted, (sort_desc_sorted det_score K)).
  apply greedy_fixed, greedy_independent.
Qed.

(** C8.  With comparisons that form a total preorder: for the same
    boxes, logits and IoU threshold and two confidence thresholds
    [t1 <= t2], what survives with [t2] is the beginning of what
    survives with [t1]; in particular there are at most as many
    detections with [t2] as with [t1]. *)
Theorem threshold_monotone (iou t1 t2 : F) (bxs : list (Box F))
        (logits : list (list F)) :
  length bxs = length logits ->
  Forall (fun row => 2 <= length row) logits ->
  fleb t1 t2 = true ->
  exists b1 c1 s1 b2 c2 s2 bt ct st,
    PostProcess_call (mkPostProcess t1 iou) bxs logits = Ok (b1, c1, s1)
    /\ PostProcess_call (mkPostProcess t2 iou) bxs logits = Ok (b2, c2, s2)
    /\ b1 = b2 ++ bt /\ c1 = c2 ++ ct /\ s1 = s2 ++ st
    /\ length b2 <= length b1
    /\ length c2 <= length c1
    /\ length s2 <= length s1.
Proof.
  intros Hl Hrows H12.
  assert (Hp : exists t,
             survivors (mkPostProcess t1 iou) bxs logits
             = survivors (mkPostProcess t2 iou) bxs logits ++ t).
  { unfold survivors. cbn [confidence_threshold iou_threshold].
    set (D := detections bxs logits).
    change (passes t2) with (fun a : detection => fgtb (det_score a) t2).
    change (passes t1) with (fun a : detection => fgtb (det_score a) t1).
    rewrite (filter_above_above det_score t1 t2 D H12).
    set (K1 := filter (fun a : detection => fgtb (det_score a) t1) D).
    rewrite filter_sort_desc.
    destruct (descending_above_prefix t2 (sort_desc_sorted det_score K1))
      as [rest Hrest].
    destruct (greedy_prefix (overlaps iou)
                (filter (fun a : detection => fgtb (det_score a) t2)
                        (sort_desc det_score K1)) rest) as [t Ht].
    rewrite <- Hrest in Ht. exists t. exact Ht. }
  destruct Hp as [t Ht].
  exists (map det_box (survivors (mkPostProcess t1 iou) bxs logits)),
    (map det_class (survivors (mkPostProcess t1 iou) bxs logits)),
    (map det_score (survivors (mkPostProcess t1 iou) bxs logits)),
    (map det_box (survivors (mkPostProcess t2 iou) bxs logits)),
    (map det_class (survivors (mkPostProcess t2 iou) bxs logits)),
    (map det_score (survivors (mkPostProcess t2 iou) bxs logits)),
    (map det_box t), (map det_class t), (map det_score t).
  split; [apply (PostProcess_call_closed _ bxs Hl Hrows) |].
  split; [apply (PostProcess_call_closed _ bxs Hl Hrows) |].
  rewrite Ht, !map_app, !length_app.
  repeat split; lia.
Qed.

End FilterClaims.

(** ** The example detections *)

Lemma ex_logits_ok :
  length ex_boxes = length ex_logits
  /\ Forall (fun row : list Q => 2 <= length row) ex_logits.
Proof. split; [reflexivity | repeat constructor]. Qed.

Lemma threshold_stage_keeps_witness :
  threshold_stage ex_filter ex_boxes ex_logits
  = Ok (map (fun q => nth q ex_boxes box0)
            (kept_queries (confidence_threshold ex_filter) ex_logits),
        map (fun q => snd (query_top (nth q ex_logits [])))
            (kept_queries (confidence_threshold ex_filter) ex_logits),
        map (fun q => fst (query_top (nth q ex_logits [])))
            (kept_queries (confidence_threshold ex_filter) ex_logits)).
Proof.
  exact (proj1 (proj2 (@threshold_stage_keeps Q Q_scalar Q_order
                         ex_filter ex_boxes ex_logits
                         (proj1 ex_logits_ok) (proj2 ex_logits_ok)))).
Defined.

Lemma PostProcess_call_lockstep_witness :
  exists (qs : list nat) (b : list (Box Q)) (c : list nat) (s : list Q),
    PostProcess_call ex_filter ex_boxes ex_logits = Ok (b, c, s)
    /\ length b = length qs /\ length c = length qs /\ length s = length qs
    /\ length qs <= 3.
Proof.
  destruct (@PostProcess_call_lockstep Q Q_scalar ex_filter ex_boxes ex_logits
              (proj1 ex_logits_ok) (proj2 ex_logits_ok))
    as (qs & b & c & s & H1 & H2 & H3 & H4 & H5 & _).
  exists qs, b, c, s. auto.
Defined.

Lemma suppress_idempotent_witness :
  exists d',
    suppress ex_filter (ex_boxes, ex_classes, ex_scores) = Ok d'
    /\ suppress ex_filter d' = Ok d'.
Proof.
  exact (@suppress_idempotent Q Q_scalar Q_order ex_filter
           ex_boxes ex_classes ex_scores eq_refl eq_refl).
Defined.

Lemma threshold_monotone_witness :
  exists b1 c1 s1 b2 c2 s2,
    PostProcess_call (mkPostProcess (1 # 2)%Q (3 # 10)%Q) ex_boxes ex_logits
    = Ok (b1, c1, s1)
    /\ PostProcess_call (mkPostProcess (3 # 4)%Q (3 # 10)%Q) ex_boxes ex_logits
       = Ok (b2, c2, s2)
    /\ length b2 <= length b1.
Proof.
  destruct (@threshold_monotone Q Q_scalar Q_order
              (3 # 10)%Q (1 # 2)%Q (3 # 4)%Q ex_boxes ex_logits
              (proj1 ex_logits_ok) (proj2 ex_logits_ok) eq_refl)
    as (b1 & c1 & s1 & b2 & c2 & s2 & _ & _ & _ & H1 & H2 & _ & _ & _ & H3 & _).
  exists b1, c1, s1, b2, c2, s2. auto.
Defined.

(** * Further properties *)

(** ** What [PostProcess] returns *)

Section GreedyCover.

Context {A : Type}.

(** Whatever is not kept is suppressed by something kept that comes
    before it. *)
Lemma greedy_covers (R : A -> A -> Prop) (sup : A -> A -> bool) (l : list A) :
  StronglySorted R l ->
  forall x, In x l ->
            In x (greedy sup l)
            \/ exists k, In k (greedy sup l) /\ sup k x = true /\ R k x.
Proof.
  funelim (greedy sup l); intros Hs x Hx; [destruct Hx |].
  inversion Hs as [| ? ? Hs' Hi]; subst.
  destruct Hx as [<- | Hx]; [left; left; reflexivity |].
  destruct (sup i x) eqn:E.
  - right. exists i. split; [left; reflexivity | split; [exact E |]].
    rewrite Forall_forall in Hi. apply Hi, Hx.
  - destruct (H R (StronglySorted_filter _ Hs') x) as [Hin | (k & Hk & Hsup & HR)].
    + apply filter_In. split; [exact Hx | rewrite E; reflexivity].
    + left. right. exact Hin.
    + right. exists k. split; [right; exact Hk | split; assumption].
Qed.

Lemma StronglySorted_map (B : Type) (f : A -> B) (R : B -> B -> Prop)
      (l : list A) :
  StronglySorted (fun a b => R (f a) (f b)) l -> StronglySorted R (map f l).
Proof.
  induction 1 as [| a l _ IH Ha]; cbn; constructor; [exact IH |].
  apply Forall_map. exact Ha.
Qed.

End GreedyCover.

Section FilterExtras.

Context {F : Type} {SF : Scalar F}.

Lemma survivors_incl (self : PostProcess F) (bxs : list (Box F))
      (logits : list (list F)) (d : detection) :
  In d (survivors self bxs logits) ->
  In d (detections bxs logits) /\ passes (confidence_threshold self) d = true.
Proof.
  unfold survivors. intros H. apply greedy_incl in H.
  apply (Permutation_in _ (sort_desc_perm _ _)) in H.
  apply filter_In in H. exact H.
Qed.

(** X1.  On boxes and logits of the same queries (at least two logits
    each), every score [PostProcess.__call__] returns is strictly
    greater than the confidence threshold. *)
Theorem PostProcess_scores_above_threshold (self : PostProcess F)
        (bxs : list (Box F)) (logits : list (list F)) :
  length bxs = length logits ->
  Forall (fun row => 2 <= length row) logits ->
  exists b c s,
    PostProcess_call self bxs logits = Ok (b, c, s)
    /\ Forall (fun x => fgtb x (confidence_threshold self) = true) s.
Proof.
  intros Hl Hrows.
  exists (map det_box (survivors self bxs logits)),
    (map det_class (survivors self bxs logits)),
    (map det_score (survivors self bxs logits)).
  split; [apply (PostProcess_call_closed self bxs Hl Hrows) |].
  apply Forall_map, Forall_forall. intros d Hd.
  apply survivors_incl in Hd. apply Hd.
Qed.

(** X2.  No box [PostProcess.__call__] returns has, with a box returned
    after it, an IoU greater than the IoU threshold. *)
Theorem PostProcess_boxes_apart (self : PostProcess F)
        (bxs : list (Box F)) (logits : list (list F)) :
  length bxs = length logits ->
  Forall (fun row => 2 <= length row) logits ->
  exists b c s,
    PostProcess_call self bxs logits = Ok (b, c, s)
    /\ StronglySorted
         (fun p q => fgtb (fst (box_iou_pair p q)) (iou_threshold self) = false)
         b.
Proof.
  intros Hl Hrows.
  exists (map det_box (survivors self bxs logits)),
    (map det_class (survivors self bxs logits)),
    (map det_score (survivors self bxs logits)).
  split; [apply (PostProcess_call_closed self bxs Hl Hrows) |].
  apply StronglySorted_map. unfold survivors.
  apply (greedy_independent (overlaps (iou_threshold self))).
Qed.

Context {SO : ScalarOrder F}.

Lemma survivors_descending (self : PostProcess F) (bxs : list (Box F))
      (logits : list (list F)) :
  descending det_score (survivors self bxs logits).
Proof.
  unfold survivors, descending. apply greedy_sorted.
  apply (sort_desc_sorted det_score).
Qed.

(** X3.  With comparisons that form a total preorder, the scores
    [PostProcess.__call__] returns never increase along the output. *)
Theorem PostProcess_scores_descending (self : PostProcess F)
        (bxs : list (Box F)) (logits : list (list F)) :
  length bxs = length logits ->
  Forall (fun row => 2 <= length row) logits ->
  exists b c s,
    PostProcess_call self bxs logits = Ok (b, c, s)
    /\ StronglySorted (fun x y => fleb y x = true) s.
Proof.
  intros Hl Hrows.
  exists (map det_box (survivors self bxs logits)),
    (map det_class (survivors self bxs logits)),
    (map det_score (survivors self bxs logits)).
  split; [apply (PostProcess_call_closed self bxs Hl Hrows) |].
  apply StronglySorted_map, survivors_descending.
Qed.

(** X4.  With comparisons that form a total preorder: a query whose
    score exceeds the confidence threshold is returned, or some returned
    detection of at least its score has with its box an IoU greater than
    the IoU threshold. *)
Theorem PostProcess_dropped_is_covered (self : PostProcess F)
        (bxs : list (Box F)) (logits : list (list F)) (q : nat) :
  length bxs = length logits ->
  Forall (fun row => 2 <= length row) logits ->
  q < length logits ->
  fgtb (fst (query_top (nth q logits []))) (confidence_threshold self) = true ->
  exists D,
    PostProcess_call self bxs logits = Ok (unzip3 D)
    /\ (In (query_detection bxs logits q) D
        \/ exists k,
            In k D
            /\ fgtb (fst (box_iou_pair (det_box k) (nth q bxs box0)))
                    (iou_threshold self) = true
            /\ fleb (fst (query_top (nth q logits []))) (det_score k) = true).
Proof.
  intros Hl Hrows Hq Hpass.
  exists (survivors self bxs logits).
  split; [apply (PostProcess_call_closed self bxs Hl Hrows) |].
  unfold survivors.
  set (K := filter (passes (confidence_threshold self)) (detections bxs logits)).
  assert (HK : In (query_detection bxs logits q) (sort_desc det_score K)).
  { apply (Permutation_in _ (Permutation_sym (sort_desc_perm _ _))).
    unfold K. rewrite (passing_detections _ _ _ Hl). apply in_map.
    apply kept_queries_range. split; assumption. }
  destruct (greedy_covers (overlaps (iou_threshold self))
              (sort_desc_sorted det_score K) _ HK)
    as [Hin | (k & Hk & Hsup & HR)].
  - left. exact Hin.
  - right. exists k. split; [exact Hk | split; [exact Hsup | exact HR]].
Qed.

(** X5.  With comparisons that form a total preorder: when some query
    has a score above the confidence threshold, the output is not empty
    and its first score is at least the score of every such query. *)
Theorem PostProcess_best_first (self : PostProcess F)
        (bxs : list (Box F)) (logits : list (list F)) (q : nat) :
  length bxs = length logits ->
  Forall (fun row => 2 <= length row) logits ->
  q < length logits ->
  fgtb (fst (query_top (nth q logits []))) (confidence_threshold self) = true ->
  exists b0 bt c0 ct s0 st,
    PostProcess_call self bxs logits = Ok (b0 :: bt, c0 :: ct, s0 :: st)
    /\ forall q',
        q' < length logits ->
        fgtb (fst (query_top (nth q' logits []))) (confidence_threshold self)
        = true ->
        fleb (fst (query_top (nth q' logits []))) s0 = true.
Proof.
  intros Hl Hrows Hq Hpass.
  pose proof (PostProcess_call_closed self bxs Hl Hrows) as Hcall.
  unfold survivors in Hcall.
  set (K := filter (passes (confidence_threshold self)) (detections bxs logits))
    in Hcall.
  assert (HK : forall q', q' < length logits ->
                          fgtb (fst (query_top (nth q' logits [])))
                               (confidence_threshold self) = true ->
                          In (query_detection bxs logits q')
                             (sort_desc det_score K)).
  { intros q' Hq' Hp'.
    apply (Permutation_in _ (Permutation_sym (sort_desc_perm _ _))).
    unfold K. rewrite (passing_detections _ _ _ Hl). apply in_map.
    apply kept_queries_range. split; assumption. }
  pose proof (sort_desc_sorted det_score K) as Hs.
  destruct (sort_desc det_score K) as [| h S] eqn:ES;
    [destruct (HK q Hq Hpass) |].
  rewrite greedy_equation_2 in Hcall.
  exists (det_box h), (map det_box (greedy (overlaps (iou_threshold self))
              (filter (fun j => negb (overlaps (iou_threshold self) h j)) S))),
    (det_class h), (map det_class (greedy (overlaps (iou_threshold self))
              (filter (fun j => negb (overlaps (iou_threshold self) h j)) S))),
    (det_score h), (map det_score (greedy (overlaps (iou_threshold self))
              (filter (fun j => negb (overlaps (iou_threshold self) h j)) S))).
  split; [exact Hcall |].
  intros q' Hq' Hp'. inversion Hs as [| ? ? _ Hh]; subst.
  destruct (HK q' Hq' Hp') as [E | Hin]; [rewrite E; apply fleb_refl |].
  rewrite Forall_forall in Hh. apply (Hh _ Hin).
Qed.

End FilterExtras.

(** ** When [PostProcess] fails *)

Section MapMFacts.

Context {A B : Type}.

Lemma mapM_raise_uniform (f : A -> result B) (l : list A) (e : error) :
  (forall a, In a l -> f a = Raise e \/ exists b, f a = Ok b) ->
  (exists a, In a l /\ f a = Raise e) ->
  mapM f l = Raise e.
Proof.
  induction l as [| x l IH]; intros Hall (a & Ha & Hf); [destruct Ha |].
  cbn. destruct (Hall x (or_introl eq_refl)) as [Hx | (b & Hx)]; rewrite Hx;
    [reflexivity |].
  cbn. rewrite IH; [reflexivity | intros; apply Hall; right; assumption |].
  destruct Ha as [<- | Ha]; [congruence |]. exists a. split; assumption.
Qed.

Lemma mapM_ok_exists (f : A -> result B) (l : list A) :
  (forall a, In a l -> exists b, f a = Ok b) -> exists r, mapM f l = Ok r.
Proof.
  induction l as [| x l IH]; intros H; cbn; [eexists; reflexivity |].
  destruct (H x (or_introl eq_refl)) as (b & Hb). rewrite Hb. cbn.
  destruct IH as (r & Hr); [intros; apply H; right; assumption |].
  rewrite Hr. cbn. eexists. reflexivity.
Qed.

Lemma mapM_ext_in (f g : A -> result B) (l : list A) :
  (forall a, In a l -> f a = g a) -> mapM f l = mapM g l.
Proof.
  induction l as [| x l IH]; intros H; cbn; [reflexivity |].
  rewrite (H x (or_introl eq_refl)), IH; [reflexivity |].
  intros; apply H; right; assumption.
Qed.

Lemma mapM_map (C : Type) (h : C -> A) (f : A -> result B) (l : list C) :
  mapM f (map h l) = mapM (fun c => f (h c)) l.
Proof.
  induction l as [| x l IH]; cbn; [reflexivity |]. rewrite IH. reflexivity.
Qed.

Lemma mask_select_mismatch (t : list A) (idx : list bool) :
  length t <> length idx -> mask_select t idx = Raise IndexError.
Proof.
  revert idx. induction t as [| a t IH]; intros [| b idx] H; cbn in *;
    try reflexivity; try congruence.
  rewrite IH by congruence. reflexivity.
Qed.

End MapMFacts.

Section FilterOutcome.

Context {F : Type} {SF : Scalar F}.

Lemma query_scores_empty (row : list F) :
  length row <= 1 -> query_scores row = [].
Proof.
  intros H. apply length_zero_iff_nil. unfold query_scores.
  rewrite removelast_firstn_len, length_firstn, softmax_length. lia.
Qed.

Lemma torch_max_cases (row : list F) :
  torch_max (removelast (softmax row)) = Raise IndexError
  \/ exists v, torch_max (removelast (softmax row)) = Ok v.
Proof.
  unfold torch_max. destruct (removelast (softmax row));
    [left; reflexivity | right; eexists; reflexivity].
Qed.

(** X6.  [PostProcess.__call__] returns exactly when there are as many
    boxes as rows of logits and every row has at least two logits (one
    class besides the background); whenever it fails, it fails with
    [IndexError]. *)
Theorem PostProcess_call_outcome (self : PostProcess F) (bxs : list (Box F))
        (logits : list (list F)) :
  ((length bxs = length logits
    /\ Forall (fun row => 2 <= length row) logits)
   <-> exists d, PostProcess_call self bxs logits = Ok d)
  /\ (forall e, PostProcess_call self bxs logits = Raise e -> e = IndexError).
Proof.
  destruct (Forall_Exists_dec (fun row : list F => 2 <= length row)
              (fun row => le_dec 2 (length row)) logits) as [Hrows | Hbad].
  - destruct (Nat.eq_dec (length bxs) (length logits)) as [Hl | Hl].
    + rewrite (PostProcess_call_closed self bxs Hl Hrows).
      split; [| discriminate].
      split; [intros _; eexists; reflexivity | intros _; split; assumption].
    + assert (E : PostProcess_call self bxs logits = Raise IndexError).
      { unfold PostProcess_call, threshold_stage.
        rewrite (@mapM_total _ _ _ query_top).
        2:{ intros row Hr. apply torch_max_top, query_scores_nonempty.
            rewrite Forall_forall in Hrows. apply Hrows, Hr. }
        cbn [bind].
        assert (Ht : length (map query_top logits) = length logits)
          by apply length_map.
        remember (map query_top logits) as top eqn:Etop. clear Etop.
        rewrite (map_map fst (fun s => fgtb s (confidence_threshold self))).
        rewrite !mask_select_map. cbn [bind].
        rewrite mask_select_mismatch by (rewrite length_map, Ht; exact Hl).
        reflexivity. }
      rewrite E. split; [| intros e H; inversion H; reflexivity].
      split; [intros [H _]; contradiction | intros (d & H); discriminate].
  - assert (E : PostProcess_call self bxs logits = Raise IndexError).
    { unfold PostProcess_call, threshold_stage.
      rewrite (mapM_raise_uniform _ logits (e := IndexError)); [reflexivity | |].
      - intros row _. apply torch_max_cases.
      - apply Exists_exists in Hbad. destruct Hbad as (row & Hin & Hrow).
        exists row. split; [exact Hin |].
        fold (query_scores row). rewrite query_scores_empty by lia.
        reflexivity. }
    rewrite E. split; [| intros e H; inversion H; reflexivity].
    split; [| intros (d & H); discriminate].
    intros [_ H]. exfalso. apply Exists_exists in Hbad.
    destruct Hbad as (row & Hin & Hrow).
    rewrite Forall_forall in H. apply Hrow, H, Hin.
Qed.

End FilterOutcome.

(** ** More on [forward] *)

Section ForwardExtras.

Context {F : Type} {SF : Scalar F}.

Lemma Forall2_nth_error (A B : Type) (R : A -> B -> Prop) (l1 : list A)
      (l2 : list B) (i : nat) (a : A) (b : B) :
  Forall2 R l1 l2 ->
  nth_error l1 i = Some a -> nth_error l2 i = Some b -> R a b.
Proof.
  intros H. revert i. induction H as [| x y l1 l2 Hxy _ IH]; intros [| i] Ha Hb;
    cbn in *; try discriminate.
  - inversion Ha; inversion Hb; subst. exact Hxy.
  - eapply IH; eassumption.
Qed.

(** One batch element, taken alone, is a batch of the documented
    shapes. *)
Lemma singleton_batch_ok (outputs : Outputs F) (bs nq nc b : nat)
      (E : list (list F)) (Bx : list (Box F)) :
  outputs_shape bs nq nc outputs ->
  boxes_ok outputs ->
  nth_error (pred_logits outputs) b = Some E ->
  nth_error (pred_boxes outputs) b = Some Bx ->
  outputs_shape 1 nq nc (mkOutputs [E] [Bx])
  /\ boxes_ok (mkOutputs [E] [Bx]).
Proof.
  intros (Hbs & Hrows & Hbx) Hok HE HB.
  rewrite Forall_forall in Hrows. unfold boxes_ok in *.
  rewrite Forall_forall in Hok.
  split.
  - unfold outputs_shape. cbn. split; [reflexivity |]. split.
    + constructor; [| constructor]. apply Hrows. eapply nth_error_In, HE.
    + constructor; [| constructor]. exact (Forall2_nth_error b Hbx HE HB).
  - cbn. constructor; [| constructor]. apply Hok. eapply nth_error_In, HB.
Qed.

(** X7.  Batching does not change an assignment: on a batch of the
    documented shapes with as many targets as batch elements, the
    assignment [forward] returns for batch element [b] is the one it
    returns for that element and its target passed alone. *)
Theorem forward_batch_independent (self : HungarianMatcher F)
        (outputs : Outputs F) (targets : list (Target F)) (bs nq nc b : nat)
        (E : list (list F)) (Bx : list (Box F)) (tg : Target F) :
  outputs_shape bs nq nc outputs ->
  boxes_ok outputs ->
  Forall (target_ok nc) targets ->
  1 <= bs -> 1 <= nq ->
  length targets = bs ->
  nth_error (pred_logits outputs) b = Some E ->
  nth_error (pred_boxes outputs) b = Some Bx ->
  nth_error targets b = Some tg ->
  exists a res,
    forward self (mkOutputs [E] [Bx]) [tg] = Ok [a]
    /\ forward self outputs targets = Ok res
    /\ nth_error res b = Some a.
Proof.
  intros Hshape Hok Hts Hbs1 Hnq1 Hlen HE HB Ht.
  destruct (singleton_batch_ok b Hshape Hok HE HB) as [Hs1 Hs2].
  assert (Htg : Forall (target_ok nc) [tg]).
  { constructor; [| constructor].
    rewrite Forall_forall in Hts. eapply Hts, nth_error_In, Ht. }
  assert (Hne : targets <> [])
    by (destruct targets; cbn in *; [lia | discriminate]).
  exists (linear_sum_assignment (block_of self (queries_of (E, Bx)) tg)).
  eexists. split; [| split].
  - assert (Hne1 : [tg] <> []) by discriminate.
    rewrite forward_blocks,
      (cost_blocks_closed self Hs1 Hs2 Htg Hne1 (le_n 1) Hnq1 (le_n 1)).
    reflexivity.
  - rewrite forward_blocks,
      (cost_blocks_closed self Hshape Hok Hts Hne Hbs1 Hnq1
                          (Nat.eq_le_incl _ _ Hlen)).
    reflexivity.
  - rewrite nth_error_map, (nth_error_block self outputs targets b HE HB Ht).
    reflexivity.
Qed.

Lemma index_z_cases (row : list F) (i : Z) :
  ((- Z.of_nat (length row) <= i < Z.of_nat (length row))%Z
   /\ index_z row i
      = Ok (nth (Z.to_nat (wrap_label (length row) i)) row fzero))
  \/ ((i < - Z.of_nat (length row) \/ Z.of_nat (length row) <= i)%Z
      /\ index_z row i = Raise IndexError).
Proof.
  unfold index_z, wrap_label.
  destruct (Z.ltb_spec i 0) as [Hn | Hn].
  - destruct (Z.leb_spec 0 (Z.of_nat (length row) + i)) as [H1 | H1]; cbn.
    + destruct (Z.ltb_spec (Z.of_nat (length row) + i) (Z.of_nat (length row)))
        as [H2 | H2]; [| lia].
      left. split; [lia |].
      destruct (nth_error row (Z.to_nat (Z.of_nat (length row) + i))) as [a |] eqn:E.
      * rewrite (nth_error_nth _ _ _ E). reflexivity.
      * apply nth_error_None in E. lia.
    + right. split; [lia | reflexivity].
  - destruct (Z.leb_spec 0 i) as [_ | H1]; [| lia]. cbn.
    destruct (Z.ltb_spec i (Z.of_nat (length row))) as [H2 | H2].
    + left. split; [lia |].
      destruct (nth_error row (Z.to_nat i)) as [a |] eqn:E.
      * rewrite (nth_error_nth _ _ _ E). reflexivity.
      * apply nth_error_None in E. lia.
    + right. split; [lia | reflexivity].
Qed.

Lemma out_prob_rows (outputs : Outputs F) (bs nq nc : nat) :
  outputs_shape bs nq nc outputs ->
  Forall (fun p => length p = nc)
         (map softmax (concat (pred_logits outputs)))
  /\ length (map softmax (concat (pred_logits outputs))) = bs * nq.
Proof.
  intros (Hbs & Hrows & _). split.
  - clear Hbs. induction Hrows as [| e L (_ & He) _ IH]; cbn; [constructor |].
    rewrite map_app. apply Forall_app. split; [| exact IH].
    apply Forall_map. eapply Forall_impl; [| exact He].
    cbn. intros row Hr. rewrite softmax_length. exact Hr.
  - rewrite length_map, <- Hbs. apply length_concat_const.
    eapply Forall_impl; [| exact Hrows]. cbn. intros e He. apply He.
Qed.

Lemma generalized_box_iou_bad (boxes1 boxes2 : list (Box F)) (b : Box F) :
  In b (boxes1 ++ boxes2) -> box_ok b = false ->
  generalized_box_iou boxes1 boxes2 = Raise AssertionError.
Proof.
  intros Hin Hb. unfold generalized_box_iou.
  destruct (forallb box_ok boxes1) eqn:E1; [| reflexivity].
  destruct (forallb box_ok boxes2) eqn:E2; [| reflexivity].
  rewrite forallb_forall in E1, E2. apply in_app_or in Hin.
  destruct Hin as [Hin | Hin];
    [rewrite (E1 b Hin) in Hb | rewrite (E2 b Hin) in Hb]; discriminate.
Qed.

(** X8.  A box that fails the check, anywhere in the batch, fails the
    whole call: when the labels index the classes (from the front or
    from the end) and there is a target, [forward] raises the assertion
    failure as soon as one predicted box or one target box of any batch
    element has [x1 < x0] or [y1 < y0] in the sense of the check. *)
Theorem forward_degenerate_box (self : HungarianMatcher F)
        (outputs : Outputs F) (targets : list (Target F)) (bs nq nc : nat)
        (bad : Box F) :
  outputs_shape bs nq nc outputs ->
  targets <> [] ->
  Forall (fun t => Forall (fun id => (- Z.of_nat nc <= id < Z.of_nat nc)%Z)
                          (labels t)) targets ->
  In bad (concat (pred_boxes outputs) ++ concat (map boxes targets)) ->
  box_ok bad = false ->
  forward self outputs targets = Raise AssertionError.
Proof.
  intros Hshape Hne Hlab Hin Hbad.
  destruct (out_prob_rows Hshape) as [Hprob _].
  unfold forward, cost_chunks, cost_matrix.
  assert (Ec1 : torch_cat (map labels targets) = Ok (concat (map labels targets)))
    by (destruct targets; [congruence | reflexivity]).
  assert (Ec2 : torch_cat (map boxes targets) = Ok (concat (map boxes targets)))
    by (destruct targets; [congruence | reflexivity]).
  rewrite Ec1, Ec2. cbn [bind].
  assert (Hids : Forall (fun id => (- Z.of_nat nc <= id < Z.of_nat nc)%Z)
                        (concat (map labels targets))).
  { clear - Hlab. induction Hlab as [| t ts Ht _ IH]; cbn; [constructor |].
    apply Forall_app. split; assumption. }
  destruct (mapM_ok_exists
              (fun p => mapM (fun id => v <- index_z p id ;; Ok (fneg v))
                             (concat (map labels targets)))
              (map softmax (concat (pred_logits outputs)))) as (cc & Hcc).
  { intros p Hp. apply mapM_ok_exists. intros id Hid.
    rewrite Forall_forall in Hprob, Hids.
    destruct (index_z_cases p id) as [[_ E] | [Hr _]].
    - rewrite E. eexists. reflexivity.
    - rewrite (Hprob p Hp) in Hr. specialize (Hids id Hid). lia. }
  rewrite Hcc. cbn [bind].
  rewrite (generalized_box_iou_bad _ _ bad Hin Hbad). reflexivity.
Qed.

(** X9.  A label that is no class fails the call before any box is
    looked at: with at least one query and one target, a label [id]
    with [id >= num_classes] or [id < - num_classes] makes [forward]
    raise [IndexError] (the error of indexing a CPU tensor), whatever
    the boxes are. *)
Theorem forward_label_out_of_range (self : HungarianMatcher F)
        (outputs : Outputs F) (targets : list (Target F)) (bs nq nc : nat)
        (t : Target F) (id : Z) :
  outputs_shape bs nq nc outputs ->
  1 <= bs -> 1 <= nq ->
  In t targets -> In id (labels t) ->
  (id < - Z.of_nat nc \/ Z.of_nat nc <= id)%Z ->
  forward self outputs targets = Raise IndexError.
Proof.
  intros Hshape Hbs1 Hnq1 Ht Hid Hout.
  destruct (out_prob_rows Hshape) as [Hprob Hlen].
  unfold forward, cost_chunks, cost_matrix.
  assert (Hne : targets <> []) by (intros E; subst; destruct Ht).
  assert (Ec1 : torch_cat (map labels targets) = Ok (concat (map labels targets)))
    by (destruct targets; [congruence | reflexivity]).
  assert (Ec2 : torch_cat (map boxes targets) = Ok (concat (map boxes targets)))
    by (destruct targets; [congruence | reflexivity]).
  rewrite Ec1, Ec2. cbn [bind].
  assert (Hin : In id (concat (map labels targets))).
  { apply in_concat. exists (labels t). split; [apply in_map, Ht | exact Hid]. }
  rewrite (mapM_raise_uniform _ _ (e := IndexError)); [reflexivity | |].
  - intros p Hp. left. apply (mapM_raise_uniform _ _ (e := IndexError)).
    + intros i _. destruct (index_z_cases p i) as [[_ E] | [_ E]]; rewrite E; cbn;
        [right; eexists; reflexivity | left; reflexivity].
    + exists id. split; [exact Hin |].
      rewrite Forall_forall in Hprob.
      destruct (index_z_cases p id) as [[Hr _] | [_ E]];
        [rewrite (Hprob p Hp) in Hr; lia | rewrite E; reflexivity].
  - destruct (map softmax (concat (pred_logits outputs))) as [| p ps] eqn:Ep;
      [cbn in Hlen; nia |].
    exists p. split; [left; reflexivity |].
    apply (mapM_raise_uniform _ _ (e := IndexError)).
    + intros i _. destruct (index_z_cases p i) as [[_ E] | [_ E]]; rewrite E; cbn;
        [right; eexists; reflexivity | left; reflexivity].
    + exists id. split; [exact Hin |].
      rewrite Forall_forall in Hprob.
      destruct (index_z_cases p id) as [[Hr _] | [_ E]];
        [rewrite (Hprob p (or_introl eq_refl)) in Hr; lia
        | rewrite E; reflexivity].
Qed.

Lemma wrap_label_range (nc : nat) (id : Z) :
  (- Z.of_nat nc <= id < Z.of_nat nc)%Z ->
  (0 <= wrap_label nc id < Z.of_nat nc)%Z.
Proof.
  unfold wrap_label. destruct (Z.ltb_spec id 0); lia.
Qed.

Lemma index_z_wrap (row : list F) (id : Z) :
  (- Z.of_nat (length row) <= id < Z.of_nat (length row))%Z ->
  index_z row (wrap_label (length row) id) = index_z row id.
Proof.
  intros H. pose proof (@wrap_label_range (length row) id H) as Hw.
  destruct (index_z_cases row id) as [[_ E] | [Hr _]]; [| lia].
  destruct (index_z_cases row (wrap_label (length row) id)) as [[_ E'] | [Hr _]];
    [| lia].
  rewrite E, E'. do 3 f_equal.
  unfold wrap_label at 1.
  destruct (Z.ltb_spec (wrap_label (length row) id) 0); [lia | reflexivity].
Qed.

(** X10.  Labels may count from the end: on outputs of the documented
    shapes, [forward] treats a label [id] with
    [- num_classes <= id < 0] as the class [num_classes + id] (so [-1]
    is the last, background, class); replacing every such label by that
    class changes nothing to what the call returns or raises. *)
Theorem forward_negative_labels (self : HungarianMatcher F)
        (outputs : Outputs F) (targets : list (Target F)) (bs nq nc : nat) :
  outputs_shape bs nq nc outputs ->
  Forall (fun t => Forall (fun id => (- Z.of_nat nc <= id < Z.of_nat nc)%Z)
                          (labels t)) targets ->
  forward self outputs (map (wrap_target nc) targets)
  = forward self outputs targets.
Proof.
  intros Hshape Hlab.
  destruct (out_prob_rows Hshape) as [Hprob _].
  assert (Hc : cost_matrix self outputs (map (wrap_target nc) targets)
               = cost_matrix self outputs targets).
  { unfold cost_matrix. rewrite !map_map. cbn [labels boxes wrap_target].
    destruct targets as [| t0 ts]; [reflexivity |].
    assert (El : torch_cat (map (fun x => map (wrap_label nc) (labels x)) (t0 :: ts))
                 = Ok (map (wrap_label nc) (concat (map labels (t0 :: ts))))).
    { change (Ok (concat (map (fun x => map (wrap_label nc) (labels x))
                              (t0 :: ts)))
              = Ok (map (wrap_label nc) (concat (map labels (t0 :: ts))))).
      f_equal. rewrite concat_map, map_map. reflexivity. }
    rewrite El.
    assert (Ec1 : torch_cat (map labels (t0 :: ts))
                  = Ok (concat (map labels (t0 :: ts)))) by reflexivity.
    rewrite Ec1. cbn [bind].
    destruct (torch_cat (map (fun x => boxes x) (t0 :: ts))) as [tb | e];
      cbn [bind]; [| reflexivity].
    assert (Hids : Forall (fun id => (- Z.of_nat nc <= id < Z.of_nat nc)%Z)
                          (concat (map labels (t0 :: ts)))).
    { clear - Hlab. induction Hlab as [| t ts' Ht _ IH]; cbn; [constructor |].
      apply Forall_app. split; assumption. }
    rewrite (mapM_ext_in
               (fun p => mapM (fun id => v <- index_z p id ;; Ok (fneg v))
                              (map (wrap_label nc) (concat (map labels (t0 :: ts)))))
               (fun p => mapM (fun id => v <- index_z p id ;; Ok (fneg v))
                              (concat (map labels (t0 :: ts))))).
    - reflexivity.
    - intros p Hp. rewrite mapM_map. apply mapM_ext_in. intros id Hid.
      rewrite Forall_forall in Hprob, Hids.
      rewrite <- (Hprob p Hp). rewrite index_z_wrap; [reflexivity |].
      rewrite (Hprob p Hp). apply Hids, Hid. }
  unfold forward, cost_chunks. rewrite Hc.
  rewrite map_map. cbn [boxes wrap_target]. reflexivity.
Qed.

End ForwardExtras.

(** ** Who is matched *)

Section Coverage.

Context {F : Type} {SF : Scalar F}.

Lemma argmin_in (A : Type) (f : A -> F) (l : list A) (best : A) :
  In (argmin f best l) (best :: l).
Proof.
  revert best. induction l as [| a l IH]; intros best; cbn [argmin];
    [left; reflexivity |].
  destruct (IH (if fltb (f a) (f best) then a else best)) as [E | Hin];
    [| right; right; exact Hin].
  rewrite <- E. destruct (fltb (f a) (f best)); [right; left | left]; reflexivity.
Qed.

(** Whatever the comparisons do, the search returns a matching of full
    size. *)
Lemma best_matching_full (c : list (list F)) :
  is_matching (length c) (length (hd [] c)) (best_matching c)
  /\ length (best_matching c) = Nat.min (length c) (length (hd [] c)).
Proof.
  unfold best_matching.
  set (nr := length c). set (nc := length (hd [] c)).
  set (cands := filter (fun m => (length m =? Nat.min nr nc)%nat)
                       (matchings (seq 0 nr) (seq 0 nc))).
  assert (Hc : forall m, In m cands <->
                         is_matching nr nc m /\ length m = Nat.min nr nc).
  { intros m. unfold cands. rewrite filter_In, Nat.eqb_eq, is_matching_enumerated.
    reflexivity. }
  destruct cands as [| m0 ms] eqn:E.
  - exfalso. destruct (diagonal_matching nr nc) as [H1 H2].
    apply (proj2 (Hc _) (conj H1 H2)).
  - apply Hc, argmin_in.
Qed.

Lemma sorted_length_le (l : list nat) (lo n : nat) :
  StronglySorted lt l ->
  Forall (fun x => lo <= x < lo + n) l ->
  length l <= n.
Proof.
  intros Hs Hr.
  assert (H : length l <= length (seq lo n)).
  { apply NoDup_incl_length; [apply StronglySorted_lt_NoDup, Hs |].
    intros x Hx. rewrite Forall_forall in Hr. apply in_seq, Hr, Hx. }
  rewrite length_seq in H. exact H.
Qed.

(** [n] increasing numbers among [lo, ..., lo + n - 1] are all of them. *)
Lemma sorted_full_is_seq (l : list nat) (lo n : nat) :
  StronglySorted lt l ->
  Forall (fun x => lo <= x < lo + n) l ->
  length l = n ->
  l = seq lo n.
Proof.
  revert lo n. induction l as [| x l IH]; intros lo n Hs Hr Hl; cbn in Hl.
  - subst n. reflexivity.
  - destruct n as [| n]; [discriminate |].
    inversion Hs as [| ? ? Hs' Hx]; subst.
    inversion Hr as [| ? ? Hx0 Hr']; subst.
    assert (Htail : Forall (fun y => S x <= y < S x + (lo + n - x)) l).
    { rewrite Forall_forall in *. intros y Hy.
      specialize (Hx y Hy). specialize (Hr' y Hy). lia. }
    pose proof (@sorted_length_le l (S x) (lo + n - x) Hs' Htail) as Hle.
    assert (x = lo) by lia. subst x.
    cbn. f_equal. apply IH; [exact Hs' | | lia].
    rewrite Forall_forall in *. intros y Hy.
    specialize (Hx y Hy). specialize (Hr' y Hy). lia.
Qed.

(** X11.  On a batch of the documented shapes with as many targets as
    batch elements, in the assignment [forward] returns for a batch
    element with [Q] queries and [T] target entries: when [T <= Q],
    every target index [0 .. T-1] occurs exactly once among the matched
    targets; when [Q <= T], the matched queries are [0 .. Q-1], each
    once and in order.  (The solver is the exhaustive search that stands
    for SciPy's; the comparisons may be arbitrary.) *)
Theorem forward_matches_all (self : HungarianMatcher F) (outputs : Outputs F)
        (targets : list (Target F)) (bs nq nc b : nat) (tg : Target F) :
  outputs_shape bs nq nc outputs ->
  boxes_ok outputs ->
  Forall (target_ok nc) targets ->
  1 <= bs -> 1 <= nq ->
  length targets = bs ->
  nth_error targets b = Some tg ->
  exists res a,
    forward self outputs targets = Ok res
    /\ nth_error res b = Some a
    /\ (length (boxes tg) <= nq ->
        Permutation (snd a) (seq 0 (length (boxes tg))))
    /\ (nq <= length (boxes tg) -> fst a = seq 0 nq).
Proof.
  intros Hshape Hok Hts Hbs1 Hnq1 Hlen Ht.
  destruct (blocks_of_batch self Hshape Hok Hts Hbs1 Hnq1 Hlen)
    as (blocks & _ & Hf & _ & Hb).
  destruct (Hb b tg Ht) as (e & _ & He & Hlab & Hblk).
  exists (map linear_sum_assignment blocks),
    (linear_sum_assignment (block_of self e tg)).
  split; [exact Hf |].
  split; [rewrite nth_error_map, Hblk; reflexivity |].
  destruct (@block_shape _ _ self e tg) as [H1 H2]; [lia | exact Hlab |].
  destruct (best_matching_full (block_of self e tg)) as [(Hs & Hn & Hr) Hl].
  rewrite H1, H2, He in *.
  unfold linear_sum_assignment. cbn [fst snd].
  rewrite Forall_forall in Hr.
  split.
  - intros HT. apply NoDup_Permutation_bis; [exact Hn | |].
    + rewrite length_seq, length_map, Hl. lia.
    + intros x Hx. apply in_map_iff in Hx. destruct Hx as (p & <- & Hp).
      apply in_seq. destruct (Hr p Hp). lia.
  - intros HQ. apply sorted_full_is_seq; [exact Hs | |].
    + apply Forall_forall. intros x Hx. apply in_map_iff in Hx.
      destruct Hx as (p & <- & Hp). destruct (Hr p Hp). lia.
    + rewrite length_map, Hl. lia.
Qed.

End Coverage.

(** ** Box geometry on the rationals *)

Section RationalGeometry.

Lemma Qfltb_iff (a b : Q) : fltb a b = true <-> (a < b)%Q.
Proof.
  cbn. rewrite negb_true_iff. split.
  - intros H. apply Qnot_le_lt. intros Hle. apply Qle_bool_iff in Hle. congruence.
  - intros H. destruct (Qle_bool b a) eqn:E; [| reflexivity].
    apply Qle_bool_iff in E. exfalso. apply (Qlt_not_le _ _ H E).
Qed.

Lemma Qfltb_false (a b : Q) : fltb a b = false <-> (b <= a)%Q.
Proof.
  cbn. rewrite negb_false_iff. apply Qle_bool_iff.
Qed.

Lemma Qfmax_cases (a b : Q) :
  ((a < b)%Q /\ fmax a b = b) \/ ((b <= a)%Q /\ fmax a b = a).
Proof.
  unfold fmax. destruct (fltb a b) eqn:E.
  - left. split; [apply Qfltb_iff, E | reflexivity].
  - right. split; [apply Qfltb_false, E | reflexivity].
Qed.

Lemma Qfmin_cases (a b : Q) :
  ((b < a)%Q /\ fmin a b = b) \/ ((a <= b)%Q /\ fmin a b = a).
Proof.
  unfold fmin. destruct (fltb b a) eqn:E.
  - left. split; [apply Qfltb_iff, E | reflexivity].
  - right. split; [apply Qfltb_false, E | reflexivity].
Qed.

Lemma Qclamp0_cases (a : Q) :
  ((a < 0)%Q /\ clamp0 a = 0%Q) \/ ((0 <= a)%Q /\ clamp0 a = a).
Proof.
  unfold clamp0. destruct (fltb a fzero) eqn:E.
  - left. split; [apply Qfltb_iff, E | reflexivity].
  - right. split; [apply Qfltb_false, E | reflexivity].
Qed.

Lemma Qfsub (a b : Q) : (fsub a b == a - b)%Q.
Proof. change (Qred (a - b) == a - b)%Q. apply Qred_correct. Qed.

Lemma overlap_1d (p0 p1 q0 q1 : Q) :
  (p0 <= p1)%Q -> (q0 <= q1)%Q ->
  (0 <= overlap_len p0 p1 q0 q1)%Q
  /\ (overlap_len p0 p1 q0 q1 <= p1 - p0)%Q
  /\ (overlap_len p0 p1 q0 q1 <= q1 - q0)%Q.
Proof.
  intros Hp Hq. unfold overlap_len.
  destruct (Qfmin_cases p1 q1) as [[H1 E1] | [H1 E1]];
    destruct (Qfmax_cases p0 q0) as [[H2 E2] | [H2 E2]];
    rewrite E1, E2;
    match goal with |- context [clamp0 ?x] =>
      destruct (Qclamp0_cases x) as [[H3 E3] | [H3 E3]]; rewrite E3;
      rewrite ?Qfsub in * end;
    repeat split; lra.
Qed.

Lemma enclose_1d (p0 p1 q0 q1 : Q) :
  (p0 <= p1)%Q -> (q0 <= q1)%Q ->
  (p1 - p0 <= enclose_len p0 p1 q0 q1)%Q
  /\ (q1 - q0 <= enclose_len p0 p1 q0 q1)%Q
  /\ ((p1 - p0) + (q1 - q0) - overlap_len p0 p1 q0 q1
      <= enclose_len p0 p1 q0 q1)%Q.
Proof.
  intros Hp Hq. unfold overlap_len, enclose_len.
  destruct (Qfmin_cases p1 q1) as [[H1 E1] | [H1 E1]];
    destruct (Qfmax_cases p0 q0) as [[H2 E2] | [H2 E2]];
    destruct (Qfmax_cases p1 q1) as [[H4 E4] | [H4 E4]];
    destruct (Qfmin_cases p0 q0) as [[H5 E5] | [H5 E5]];
    rewrite E1, E2, E4, E5;
    repeat match goal with |- context [clamp0 ?x] =>
      let H := fresh "Hc" in let E := fresh "Ec" in
      destruct (Qclamp0_cases x) as [[H E] | [H E]]; rewrite E;
      rewrite ?Qfsub in * end;
    repeat split; lra.
Qed.

Lemma Qfadd (a b : Q) : (fadd a b == a + b)%Q.
Proof. change (Qred (a + b) == a + b)%Q. apply Qred_correct. Qed.
Lemma Qfmul (a b : Q) : (fmul a b == a * b)%Q.
Proof. change (Qred (a * b) == a * b)%Q. apply Qred_correct. Qed.
Lemma Qfdiv (a b : Q) : (fdiv a b == a / b)%Q.
Proof. change (Qred (a / b) == a / b)%Q. apply Qred_correct. Qed.

Ltac qops :=
  repeat (rewrite Qfsub || rewrite Qfadd || rewrite Qfmul || rewrite Qfdiv).

Lemma box_ok_Q (b : Box Q) :
  box_ok b = true <-> (x0 b <= x1 b)%Q /\ (y0 b <= y1 b)%Q.
Proof.
  unfold box_ok, fgeb. rewrite andb_true_iff.
  change (fleb (x0 b) (x1 b)) with (Qle_bool (x0 b) (x1 b)).
  change (fleb (y0 b) (y1 b)) with (Qle_bool (y0 b) (y1 b)).
  rewrite !Qle_bool_iff. reflexivity.
Qed.

Lemma union_Q (a b : Box Q) :
  (snd (box_iou_pair a b)
   == (x1 a - x0 a) * (y1 a - y0 a) + (x1 b - x0 b) * (y1 b - y0 b)
      - inter_w a b * inter_h a b)%Q.
Proof.
  unfold box_iou_pair, box_area. cbn [snd].
  fold (overlap_len (x0 a) (x1 a) (x0 b) (x1 b)).
  fold (overlap_len (y0 a) (y1 a) (y0 b) (y1 b)).
  fold (inter_w a b). fold (inter_h a b).
  qops. reflexivity.
Qed.

Lemma iou_Q (a b : Box Q) :
  (fst (box_iou_pair a b)
   == (inter_w a b * inter_h a b) / snd (box_iou_pair a b))%Q.
Proof.
  unfold box_iou_pair. cbn [fst snd].
  fold (overlap_len (x0 a) (x1 a) (x0 b) (x1 b)).
  fold (overlap_len (y0 a) (y1 a) (y0 b) (y1 b)).
  fold (inter_w a b). fold (inter_h a b).
  rewrite Qfdiv, Qfmul. reflexivity.
Qed.

Lemma giou_Q (a b : Box Q) :
  (giou_pair a b
   == fst (box_iou_pair a b)
      - (encl_w a b * encl_h a b - snd (box_iou_pair a b))
        / (encl_w a b * encl_h a b))%Q.
Proof.
  unfold giou_pair.
  destruct (box_iou_pair a b) as [iou union]. cbn [fst snd].
  fold (enclose_len (x0 a) (x1 a) (x0 b) (x1 b)).
  fold (enclose_len (y0 a) (y1 a) (y0 b) (y1 b)).
  fold (encl_w a b). fold (encl_h a b).
  qops. reflexivity.
Qed.

Lemma union_positive (a b : Box Q) :
  box_ok a = true -> box_ok b = true ->
  (x0 a < x1 a)%Q -> (y0 a < y1 a)%Q ->
  (0 < snd (box_iou_pair a b))%Q.
Proof.
  intros Ha Hb Hx Hy.
  apply box_ok_Q in Ha. apply box_ok_Q in Hb.
  destruct Ha as [Hax Hay], Hb as [Hbx Hby].
  destruct (overlap_1d Hax Hbx) as (Hw0 & Hwa & Hwb).
  destruct (overlap_1d Hay Hby) as (Hh0 & Hha & Hhb).
  rewrite union_Q. unfold inter_w, inter_h. nra.
Qed.

(** X12.  On the rationals, for two boxes that pass the check and whose
    union is not zero (as when one of them has positive width and
    height): the IoU of [box_iou] lies between 0 and 1, and the
    generalized IoU lies between -1 and the IoU. *)
Theorem iou_giou_range (a b : Box Q) :
  box_ok a = true -> box_ok b = true ->
  (0 < snd (box_iou_pair a b))%Q ->
  (0 <= fst (box_iou_pair a b) <= 1)%Q
  /\ (-1 <= giou_pair a b)%Q
  /\ (giou_pair a b <= fst (box_iou_pair a b))%Q.
Proof.
  intros Ha Hb HU.
  apply box_ok_Q in Ha. apply box_ok_Q in Hb.
  destruct Ha as [Hax Hay], Hb as [Hbx Hby].
  destruct (overlap_1d Hax Hbx) as (Hw0 & Hwa & Hwb).
  destruct (overlap_1d Hay Hby) as (Hh0 & Hha & Hhb).
  destruct (enclose_1d Hax Hbx) as (HWa & HWb & HWu).
  destruct (enclose_1d Hay Hby) as (HHa & HHb & HHu).
  fold (inter_w a b) in *. fold (inter_h a b) in *.
  fold (encl_w a b) in *. fold (encl_h a b) in *.
  pose proof (union_Q a b) as EU. pose proof (iou_Q a b) as EI.
  pose proof (giou_Q a b) as EG.
  set (U := snd (box_iou_pair a b)) in *.
  set (I := fst (box_iou_pair a b)) in *.
  set (G := giou_pair a b) in *.
  set (w := inter_w a b) in *. set (h := inter_h a b) in *.
  set (W := encl_w a b) in *. set (H := encl_h a b) in *.
  set (wa := (x1 a - x0 a)%Q) in *. set (ha := (y1 a - y0 a)%Q) in *.
  set (wb := (x1 b - x0 b)%Q) in *. set (hb := (y1 b - y0 b)%Q) in *.
  clearbody U I G w h W H wa ha wb hb.
  assert (Hi0 : (0 <= w * h)%Q) by nra.
  assert (Hia : (w * h <= wa * ha)%Q) by nra.
  assert (Hib : (w * h <= wb * hb)%Q) by nra.
  assert (HIU : (w * h <= U)%Q) by (rewrite EU; nra).
  assert (HCU : (U <= W * H)%Q).
  { rewrite EU.
    assert (H1 : (0 <= (wa - w) * (hb - h))%Q) by nra.
    assert (H2 : (0 <= (wb - w) * (ha - h))%Q) by nra.
    assert (H3 : ((wa + wb - w) * (ha + hb - h) <= W * H)%Q) by nra.
    nra. }
  assert (HC : (0 < W * H)%Q) by lra.
  assert (I01 : (0 <= I <= 1)%Q).
  { rewrite EI. split.
    - apply Qle_shift_div_l; [exact HU | lra].
    - apply Qle_shift_div_r; [exact HU | lra]. }
  assert (T01 : (0 <= (W * H - U) / (W * H) <= 1)%Q).
  { split.
    - apply Qle_shift_div_l; [exact HC | lra].
    - apply Qle_shift_div_r; [exact HC | lra]. }
  split; [exact I01 |].
  rewrite EG. split; lra.
Qed.

Lemma overlap_self (p0 p1 : Q) :
  (p0 <= p1)%Q ->
  (overlap_len p0 p1 p0 p1 == p1 - p0)%Q /\ (enclose_len p0 p1 p0 p1 == p1 - p0)%Q.
Proof.
  intros Hp. unfold overlap_len, enclose_len.
  destruct (Qfmin_cases p1 p1) as [[H1 E1] | [H1 E1]];
    destruct (Qfmax_cases p0 p0) as [[H2 E2] | [H2 E2]];
    destruct (Qfmax_cases p1 p1) as [[H4 E4] | [H4 E4]];
    destruct (Qfmin_cases p0 p0) as [[H5 E5] | [H5 E5]];
    rewrite E1, E2, E4, E5;
    repeat match goal with |- context [clamp0 ?x] =>
      let H := fresh "Hc" in let E := fresh "Ec" in
      destruct (Qclamp0_cases x) as [[H E] | [H E]]; rewrite E;
      rewrite ?Qfsub in * end;
    split; lra.
Qed.

Lemma Qfmin_sym (a b : Q) : (fmin a b == fmin b a)%Q.
Proof.
  destruct (Qfmin_cases a b) as [[H1 E1] | [H1 E1]];
    destruct (Qfmin_cases b a) as [[H2 E2] | [H2 E2]];
    rewrite E1, E2; lra.
Qed.

Lemma Qfmax_sym (a b : Q) : (fmax a b == fmax b a)%Q.
Proof.
  destruct (Qfmax_cases a b) as [[H1 E1] | [H1 E1]];
    destruct (Qfmax_cases b a) as [[H2 E2] | [H2 E2]];
    rewrite E1, E2; lra.
Qed.

Lemma Qclamp0_comp (x y : Q) : (x == y)%Q -> (clamp0 x == clamp0 y)%Q.
Proof.
  intros E.
  destruct (Qclamp0_cases x) as [[H1 E1] | [H1 E1]];
    destruct (Qclamp0_cases y) as [[H2 E2] | [H2 E2]];
    rewrite E1, E2; lra.
Qed.

Lemma overlap_sym (p0 p1 q0 q1 : Q) :
  (overlap_len p0 p1 q0 q1 == overlap_len q0 q1 p0 p1)%Q
  /\ (enclose_len p0 p1 q0 q1 == enclose_len q0 q1 p0 p1)%Q.
Proof.
  unfold overlap_len, enclose_len.
  split; apply Qclamp0_comp; rewrite !Qfsub.
  - rewrite (Qfmin_sym p1 q1), (Qfmax_sym p0 q0). reflexivity.
  - rewrite (Qfmin_sym p0 q0), (Qfmax_sym p1 q1). reflexivity.
Qed.

Lemma overlap_apart (p0 p1 q0 q1 : Q) :
  (p0 <= p1)%Q -> (q0 <= q1)%Q ->
  (p1 < q0 \/ q1 < p0)%Q ->
  overlap_len p0 p1 q0 q1 = 0%Q
  /\ ((p1 - p0) + (q1 - q0) < enclose_len p0 p1 q0 q1)%Q.
Proof.
  intros Hp Hq Hsep. unfold overlap_len, enclose_len.
  destruct (Qfmin_cases p1 q1) as [[H1 E1] | [H1 E1]];
    destruct (Qfmax_cases p0 q0) as [[H2 E2] | [H2 E2]];
    destruct (Qfmax_cases p1 q1) as [[H4 E4] | [H4 E4]];
    destruct (Qfmin_cases p0 q0) as [[H5 E5] | [H5 E5]];
    rewrite E1, E2, E4, E5;
    repeat match goal with |- context [clamp0 ?x] =>
      let H := fresh "Hc" in let E := fresh "Ec" in
      destruct (Qclamp0_cases x) as [[H E] | [H E]]; rewrite E;
      rewrite ?Qfsub in * end;
    (split; [first [reflexivity | exfalso; lra] | lra]).
Qed.


Lemma Qcanon_eq (x y : Q) : Qred x = x -> Qred y = y -> (x == y)%Q -> x = y.
Proof. intros Hx Hy E. rewrite <- Hx, <- Hy. apply Qred_complete, E. Qed.

Lemma Qred_twice (q : Q) : Qred (Qred q) = Qred q.
Proof. apply Qred_complete, Qred_correct. Qed.

Lemma union_canon (a b : Box Q) :
  Qred (snd (box_iou_pair a b)) = snd (box_iou_pair a b).
Proof. unfold box_iou_pair. cbn [snd]. apply Qred_twice. Qed.

Lemma iou_canon (a b : Box Q) :
  Qred (fst (box_iou_pair a b)) = fst (box_iou_pair a b).
Proof. unfold box_iou_pair. cbn [fst]. apply Qred_twice. Qed.

Lemma giou_canon (a b : Box Q) : Qred (giou_pair a b) = giou_pair a b.
Proof.
  unfold giou_pair. destruct (box_iou_pair a b). apply Qred_twice.
Qed.

(** X13.  On the rationals, [box_iou] and [generalized_box_iou] do not
    depend on the order of the two boxes: the pair (iou, union) and the
    generalized IoU of [a] and [b] are those of [b] and [a]. *)
Theorem box_iou_symmetric (a b : Box Q) :
  box_iou_pair a b = box_iou_pair b a /\ giou_pair a b = giou_pair b a.
Proof.
  destruct (overlap_sym (x0 a) (x1 a) (x0 b) (x1 b)) as [Ew EW].
  destruct (overlap_sym (y0 a) (y1 a) (y0 b) (y1 b)) as [Eh EH].
  fold (inter_w a b) in Ew. fold (inter_w b a) in Ew.
  fold (inter_h a b) in Eh. fold (inter_h b a) in Eh.
  fold (encl_w a b) in EW. fold (encl_w b a) in EW.
  fold (encl_h a b) in EH. fold (encl_h b a) in EH.
  assert (EU : snd (box_iou_pair a b) = snd (box_iou_pair b a)).
  { apply Qcanon_eq; try apply union_canon.
    rewrite !union_Q, Ew, Eh. ring. }
  assert (EI : fst (box_iou_pair a b) = fst (box_iou_pair b a)).
  { apply Qcanon_eq; try apply iou_canon.
    rewrite !iou_Q, EU, Ew, Eh. reflexivity. }
  split.
  - rewrite (surjective_pairing (box_iou_pair a b)),
      (surjective_pairing (box_iou_pair b a)), EU, EI. reflexivity.
  - apply Qcanon_eq; try apply giou_canon.
    rewrite !giou_Q, EU, EI, EW, EH. reflexivity.
Qed.

(** X14.  On the rationals, a box of positive width and height has,
    with itself, union its own area, IoU 1 and generalized IoU 1. *)
Theorem box_iou_self (b : Box Q) :
  (x0 b < x1 b)%Q -> (y0 b < y1 b)%Q ->
  fst (box_iou_pair b b) = 1%Q
  /\ giou_pair b b = 1%Q
  /\ (snd (box_iou_pair b b) == (x1 b - x0 b) * (y1 b - y0 b))%Q.
Proof.
  intros Hx Hy.
  destruct (@overlap_self (x0 b) (x1 b)) as [Ew EW]; [lra |].
  destruct (@overlap_self (y0 b) (y1 b)) as [Eh EH]; [lra |].
  fold (inter_w b b) in Ew. fold (inter_h b b) in Eh.
  fold (encl_w b b) in EW. fold (encl_h b b) in EH.
  assert (EU : (snd (box_iou_pair b b) == (x1 b - x0 b) * (y1 b - y0 b))%Q).
  { rewrite union_Q, Ew, Eh. ring. }
  assert (HA : (0 < (x1 b - x0 b) * (y1 b - y0 b))%Q) by nra.
  assert (EI : fst (box_iou_pair b b) = 1%Q).
  { apply Qcanon_eq; [apply iou_canon | reflexivity |].
    rewrite iou_Q, EU, Ew, Eh. field. lra. }
  split; [exact EI | split; [| exact EU]].
  apply Qcanon_eq; [apply giou_canon | reflexivity |].
  rewrite giou_Q, EI, EU, EW, EH. field. lra.
Qed.

(** X15.  The early check of [generalized_box_iou] lets a box of zero
    width or zero height through ([>=], not [>]); on the rationals the
    union of such a box with itself, by which [box_iou] divides, is
    zero. *)
Theorem box_zero_area_passes (b : Box Q) :
  (x0 b <= x1 b)%Q -> (y0 b <= y1 b)%Q ->
  (x0 b == x1 b \/ y0 b == y1 b)%Q ->
  box_ok b = true /\ snd (box_iou_pair b b) = 0%Q.
Proof.
  intros Hx Hy Hz. split; [apply box_ok_Q; split; assumption |].
  destruct (overlap_self Hx) as [Ew _].
  destruct (overlap_self Hy) as [Eh _].
  fold (inter_w b b) in Ew. fold (inter_h b b) in Eh.
  apply Qcanon_eq; [apply union_canon | reflexivity |].
  rewrite union_Q, Ew, Eh.
  destruct Hz as [E | E]; rewrite E; ring.
Qed.

(** X16.  On the rationals, two boxes of positive width and height that
    a vertical or a horizontal gap separates have IoU 0 and a negative
    generalized IoU. *)
Theorem box_iou_apart (a b : Box Q) :
  (x0 a < x1 a)%Q -> (y0 a < y1 a)%Q ->
  (x0 b < x1 b)%Q -> (y0 b < y1 b)%Q ->
  (x1 a < x0 b \/ x1 b < x0 a \/ y1 a < y0 b \/ y1 b < y0 a)%Q ->
  fst (box_iou_pair a b) = 0%Q
  /\ (giou_pair a b < 0)%Q.
Proof.
  intros Hax Hay Hbx Hby Hsep.
  assert (Hax' : (x0 a <= x1 a)%Q) by lra.
  assert (Hay' : (y0 a <= y1 a)%Q) by lra.
  assert (Hbx' : (x0 b <= x1 b)%Q) by lra.
  assert (Hby' : (y0 b <= y1 b)%Q) by lra.
  destruct (overlap_1d Hax' Hbx') as (Hw0 & Hwa & Hwb).
  destruct (overlap_1d Hay' Hby') as (Hh0 & Hha & Hhb).
  destruct (enclose_1d Hax' Hbx') as (HWa & HWb & HWu).
  destruct (enclose_1d Hay' Hby') as (HHa & HHb & HHu).
  pose proof (union_Q a b) as EU. pose proof (iou_Q a b) as EI.
  pose proof (giou_Q a b) as EG.
  assert (Hsep' : (inter_w a b * inter_h a b == 0
                   /\ snd (box_iou_pair a b) < encl_w a b * encl_h a b)%Q).
  { rewrite EU. unfold inter_w, inter_h, encl_w, encl_h in *.
    destruct Hsep as [Hs | [Hs | [Hs | Hs]]].
    - destruct (overlap_apart Hax' Hbx' (or_introl Hs)) as [E0 HW].
      rewrite E0 in *. split; [ring | nra].
    - destruct (overlap_apart Hax' Hbx' (or_intror Hs)) as [E0 HW].
      rewrite E0 in *. split; [ring | nra].
    - destruct (overlap_apart Hay' Hby' (or_introl Hs)) as [E0 HW].
      rewrite E0 in *. split; [ring | nra].
    - destruct (overlap_apart Hay' Hby' (or_intror Hs)) as [E0 HW].
      rewrite E0 in *. split; [ring | nra]. }
  destruct Hsep' as [E0 HCU].
  assert (EI0 : fst (box_iou_pair a b) = 0%Q).
  { apply Qcanon_eq; [apply iou_canon | reflexivity |].
    rewrite EI, E0. unfold Qdiv. ring. }
  split; [exact EI0 |].
  rewrite EG, EI0.
  assert (HU : (0 < snd (box_iou_pair a b))%Q).
  { rewrite EU, E0. nra. }
  set (U := snd (box_iou_pair a b)) in *.
  set (C := (encl_w a b * encl_h a b)%Q) in *.
  clearbody U C.
  assert (HT : (0 < (C - U) / C)%Q).
  { apply Qlt_shift_div_l; lra. }
  lra.
Qed.

End RationalGeometry.

(** ** The further properties on the examples *)

Lemma PostProcess_scores_above_threshold_witness :
  exists b c s,
    PostProcess_call ex_filter ex_boxes ex_logits = Ok (b, c, s)
    /\ Forall (fun x => fgtb x (confidence_threshold ex_filter) = true) s.
Proof.
  exact (@PostProcess_scores_above_threshold Q Q_scalar ex_filter
           ex_boxes ex_logits (proj1 ex_logits_ok) (proj2 ex_logits_ok)).
Defined.

Lemma PostProcess_boxes_apart_witness :
  exists b c s,
    PostProcess_call ex_filter ex_boxes ex_logits = Ok (b, c, s)
    /\ StronglySorted
         (fun p q => fgtb (fst (box_iou_pair p q)) (iou_threshold ex_filter)
                     = false) b.
Proof.
  exact (@PostProcess_boxes_apart Q Q_scalar ex_filter
           ex_boxes ex_logits (proj1 ex_logits_ok) (proj2 ex_logits_ok)).
Defined.

Lemma PostProcess_scores_descending_witness :
  exists b c s,
    PostProcess_call ex_filter ex_boxes ex_logits = Ok (b, c, s)
    /\ StronglySorted (fun x y => fleb y x = true) s.
Proof.
  exact (@PostProcess_scores_descending Q Q_scalar Q_order ex_filter
           ex_boxes ex_logits (proj1 ex_logits_ok) (proj2 ex_logits_ok)).
Defined.

Lemma PostProcess_dropped_is_covered_witness :
  exists D,
    PostProcess_call ex_filter ex_boxes ex_logits = Ok (unzip3 D)
    /\ (In (query_detection ex_boxes ex_logits 0) D
        \/ exists k,
            In k D
            /\ fgtb (fst (box_iou_pair (det_box k) (nth 0 ex_boxes box0)))
                    (iou_threshold ex_filter) = true
            /\ fleb (fst (query_top (nth 0 ex_logits []))) (det_score k) = true).
Proof.
  apply (@PostProcess_dropped_is_covered Q Q_scalar Q_order ex_filter
           ex_boxes ex_logits 0 (proj1 ex_logits_ok) (proj2 ex_logits_ok)).
  - cbn. lia.
  - vm_compute. reflexivity.
Defined.

Lemma PostProcess_best_first_witness :
  exists b0 bt c0 ct s0 st,
    PostProcess_call ex_filter ex_boxes ex_logits
    = Ok (b0 :: bt, c0 :: ct, s0 :: st).
Proof.
  destruct (@PostProcess_best_first Q Q_scalar Q_order ex_filter
              ex_boxes ex_logits 0 (proj1 ex_logits_ok) (proj2 ex_logits_ok))
    as (b0 & bt & c0 & ct & s0 & st & H & _).
  - cbn. lia.
  - vm_compute. reflexivity.
  - exists b0, bt, c0, ct, s0, st. exact H.
Defined.

Lemma forward_batch_independent_witness :
  exists a res,
    forward ex_matcher
            (mkOutputs [[[0; 0; 1]; [1; 1; 0]]%Q]
                       [[qbox 1 1 2 2; qbox 0 0 3 3]])
            [mkTarget [1%Z; 0%Z] [qbox 1 1 2 2; qbox 0 0 1 1]] = Ok [a]
    /\ forward ex_matcher ex_outputs ex_targets = Ok res
    /\ nth_error res 1 = Some a.
Proof.
  apply (@forward_batch_independent Q Q_scalar ex_matcher ex_outputs ex_targets
           2 2 3 1 _ _ _
           (proj1 ex_outputs_ok) (proj2 ex_outputs_ok) (proj1 ex_targets_ok));
    try reflexivity; lia.
Defined.

Lemma ex_bad_outputs_shape : outputs_shape 2 2 3 ex_bad_outputs.
Proof. unfold outputs_shape; cbn; repeat split; repeat constructor. Qed.

Lemma forward_degenerate_box_witness :
  forward ex_matcher ex_bad_outputs ex_targets = Raise AssertionError.
Proof.
  apply (@forward_degenerate_box Q Q_scalar ex_matcher ex_bad_outputs
           ex_targets 2 2 3 (qbox 2 2 1 1) ex_bad_outputs_shape).
  - discriminate.
  - repeat constructor; cbn; lia.
  - cbn. tauto.
  - reflexivity.
Defined.

Lemma forward_label_out_of_range_witness :
  forward ex_matcher ex_outputs ex_bad_label = Raise IndexError.
Proof.
  apply (@forward_label_out_of_range Q Q_scalar ex_matcher ex_outputs
           ex_bad_label 2 2 3 (mkTarget [3%Z] [qbox 1 1 2 2]) 3%Z
           (proj1 ex_outputs_ok)).
  - lia.
  - lia.
  - cbn. tauto.
  - cbn. tauto.
  - cbn. lia.
Defined.

Lemma forward_negative_labels_witness :
  forward ex_matcher ex_outputs (map (wrap_target 3) ex_negative_targets)
  = forward ex_matcher ex_outputs ex_negative_targets.
Proof.
  apply (@forward_negative_labels Q Q_scalar ex_matcher ex_outputs
           ex_negative_targets 2 2 3 (proj1 ex_outputs_ok)).
  repeat constructor; cbn; lia.
Defined.

Lemma forward_matches_all_witness :
  exists res a,
    forward ex_matcher ex_outputs ex_targets = Ok res
    /\ nth_error res 1 = Some a
    /\ Permutation (snd a) [0; 1]
    /\ fst a = [0; 1].
Proof.
  destruct (@forward_matches_all Q Q_scalar ex_matcher ex_outputs ex_targets
              2 2 3 1 (mkTarget [1%Z; 0%Z] [qbox 1 1 2 2; qbox 0 0 1 1])
              (proj1 ex_outputs_ok) (proj2 ex_outputs_ok) (proj1 ex_targets_ok))
    as (res & a & H1 & H2 & H3 & H4); try reflexivity; try lia.
  exists res, a. split; [exact H1 | split; [exact H2 | split]].
  - apply H3. cbn. lia.
  - apply H4. cbn. lia.
Defined.

Lemma iou_giou_range_witness :
  (0 <= fst (box_iou_pair (qbox 0 0 2 2) (qbox 1 1 3 3)) <= 1)%Q
  /\ (-1 <= giou_pair (qbox 0 0 2 2) (qbox 1 1 3 3))%Q
  /\ (giou_pair (qbox 0 0 2 2) (qbox 1 1 3 3)
      <= fst (box_iou_pair (qbox 0 0 2 2) (qbox 1 1 3 3)))%Q.
Proof.
  apply (@iou_giou_range (qbox 0 0 2 2) (qbox 1 1 3 3)).
  - reflexivity.
  - reflexivity.
  - vm_compute. reflexivity.
Defined.

Lemma box_iou_self_witness :
  fst (box_iou_pair (qbox 0 0 10 10) (qbox 0 0 10 10)) = 1%Q
  /\ giou_pair (qbox 0 0 10 10) (qbox 0 0 10 10) = 1%Q
  /\ (snd (box_iou_pair (qbox 0 0 10 10) (qbox 0 0 10 10))
      == (10 - 0) * (10 - 0))%Q.
Proof.
  apply (@box_iou_self (qbox 0 0 10 10)); reflexivity.
Defined.

Lemma box_zero_area_passes_witness :
  box_ok (qbox 1 1 1 2) = true
  /\ snd (box_iou_pair (qbox 1 1 1 2) (qbox 1 1 1 2)) = 0%Q.
Proof.
  apply (@box_zero_area_passes (qbox 1 1 1 2)).
  - cbn. lra.
  - cbn. lra.
  - left. reflexivity.
Defined.

Lemma box_iou_apart_witness :
  fst (box_iou_pair (qbox 0 0 1 1) (qbox 2 0 3 1)) = 0%Q
  /\ (giou_pair (qbox 0 0 1 1) (qbox 2 0 3 1) < 0)%Q.
Proof.
  apply (@box_iou_apart (qbox 0 0 1 1) (qbox 2 0 3 1)); try reflexivity.
  left. reflexivity.
Defined.
